(** * TodoApp: completion propagation, display ordering and input handling

    A shallow embedding of [src/components/TodoApp.tsx].  The component keeps
    its todo items in a flat array whose order, together with the [depth] of
    every item, encodes the hierarchy.  The development models

    - the [Todo] record and the component state ([useState] cells),
    - [toggleTodo] with its two passes [updateChildrenCompletion] and
      [updateParentCompletion] (arrays updated in place by index),
    - the comparator of [sortedTodos],
    - [handleKeyDown] and [addTodo].

    JavaScript numbers that hold integers are modelled by [Z], array indices
    by [nat], strings by [string], arrays by [list] with stdpp's lookup
    [l !! i] and in-place update [<[i:=x]> l]. *)

From Stdlib Require Import ZArith Bool List Ascii String Sorted Permutation.
From stdpp Require Import base list strings pretty.

Local Open Scope Z_scope.

(** ** Data model *)

Inductive Priority := emergency | urgent | normal | low.

Global Instance Priority_eq_dec : EqDecision Priority.
Proof. solve_decision. Defined.

(** [interface Todo]; the optional field [children] is never written nor read
    by the component and is left out. *)
Record Todo := mkTodo {
  id : string;
  text : string;
  completed : bool;
  depth : Z;
  priority : Priority
}.

Global Instance Todo_eq_dec : EqDecision Todo.
Proof. solve_decision. Defined.

(** The object spread [{ ...todo, completed: c }]. *)
Definition set_completed (todo : Todo) (c : bool) : Todo :=
  {| id := id todo; text := text todo; completed := c;
     depth := depth todo; priority := priority todo |}.

(** Outcome of running a handler: it returns, or an exception escapes. *)
Inductive JSError := TypeError.

Inductive Completion (A : Type) :=
| Normal (a : A)
| Throw (e : JSError).
Arguments Normal {A} a.
Arguments Throw {A} e.

(** ** Completion propagation *)

(** [Array.prototype.findIndex]; [None] stands for the result [-1]. *)
Fixpoint findIndex (p : Todo → bool) (l : list Todo) : option nat :=
  match l with
  | [] => None
  | x :: l' => if p x then Some O else S <$> findIndex p l'
  end.

(** The [for] loop of [getDirectChildren].  [n] is the number of iterations
    left, [todoList.length - i]. *)
Fixpoint getDirectChildrenLoop (n : nat) (parentTodo : Todo)
    (todoList : list Todo) (i : nat) (children : list Todo) : list Todo :=
  match n with
  | O => children
  | S n' =>
    match todoList !! i with
    | None => children
    | Some todo =>
      if depth todo <=? depth parentTodo then children
      else if depth todo =? depth parentTodo + 1 then
        getDirectChildrenLoop n' parentTodo todoList (S i) (children ++ [todo])
      else getDirectChildrenLoop n' parentTodo todoList (S i) children
    end
  end.

Definition getDirectChildren (todoList : list Todo) (parentIndex : nat)
  : list Todo :=
  match todoList !! parentIndex with
  | Some parentTodo =>
    getDirectChildrenLoop (length todoList - S parentIndex) parentTodo
      todoList (S parentIndex) []
  | None => []
  end.

(** The [for] loop of [updateChildrenCompletion], threading the array that
    the source mutates.  [n] is again [todoList.length - i]; the recursive
    call [updateChildrenCompletion(todoList, i, completed)] is the same loop
    started at [i + 1] with [todoList[i]] as the parent, which has
    [n - 1] iterations left (see [updateChildrenCompletion_rec]). *)
Fixpoint updateChildrenLoop (n : nat) (parentTodo : Todo) (completed' : bool)
    (i : nat) (todoList : list Todo) : list Todo :=
  match n with
  | O => todoList
  | S n' =>
    match todoList !! i with
    | None => todoList
    | Some todo =>
      if depth todo <=? depth parentTodo then todoList
      else if depth todo =? depth parentTodo + 1 then
        let todoList1 := <[i := set_completed todo completed']> todoList in
        let todoList2 :=
          if completed' then
            updateChildrenLoop n' (set_completed todo completed') completed'
              (S i) todoList1
          else todoList1 in
        updateChildrenLoop n' parentTodo completed' (S i) todoList2
      else updateChildrenLoop n' parentTodo completed' (S i) todoList
    end
  end.

Definition updateChildrenCompletion (todoList : list Todo) (parentIndex : nat)
    (completed' : bool) : list Todo :=
  match todoList !! parentIndex with
  | Some parentTodo =>
    updateChildrenLoop (length todoList - S parentIndex) parentTodo completed'
      (S parentIndex) todoList
  | None => todoList
  end.

(** One iteration of the loop of [updateParentCompletion]. *)
Definition updateParentStep (todoList : list Todo) (i : nat) : list Todo :=
  match todoList !! i with
  | None => todoList
  | Some todo =>
    if depth todo <? 2 then
      let children := getDirectChildren todoList i in
      if (0 <? length children)%nat then
        let allChildrenCompleted := forallb completed children in
        let anyChildUncompleted :=
          existsb (λ child, negb (completed child)) children in
        if allChildrenCompleted && negb (completed todo) then
          <[i := set_completed todo true]> todoList
        else if anyChildUncompleted && completed todo then
          <[i := set_completed todo false]> todoList
        else todoList
      else todoList
    else todoList
  end.

(** [for (let i = n - 1; i >= 0; i--)]. *)
Fixpoint updateParentLoop (n : nat) (todoList : list Todo) : list Todo :=
  match n with
  | O => todoList
  | S i => updateParentLoop i (updateParentStep todoList i)
  end.

Definition updateParentCompletion (todoList : list Todo) : list Todo :=
  updateParentLoop (length todoList) todoList.

(** The first half of [toggleTodo]: the clicked item is flipped and, when it
    became completed, the cascade runs.  This is the array just before
    [updateParentCompletion(updated)]. *)
Definition toggleDown (todos : list Todo) (todoIndex : nat)
    (clickedTodo : Todo) : list Todo :=
  let flipped := set_completed clickedTodo (negb (completed clickedTodo)) in
  let updated := <[todoIndex := flipped]> todos in
  if completed flipped then updateChildrenCompletion updated todoIndex true
  else updated.

(** [toggleTodo]; the result is the array handed to [setTodos].  When no item
    has the id, [findIndex] gives [-1], [updated[-1]] is [undefined] and
    reading [clickedTodo.completed] throws before [setTodos] is reached. *)
Definition toggleTodo (todos : list Todo) (id' : string)
  : Completion (list Todo) :=
  match findIndex (λ todo, String.eqb (id todo) id') todos with
  | None => Throw TypeError
  | Some todoIndex =>
    match todos !! todoIndex with
    | None => Throw TypeError
    | Some clickedTodo =>
      Normal (updateParentCompletion (toggleDown todos todoIndex clickedTodo))
    end
  end.

(** ** Display ordering *)

Definition priorityOrder (p : Priority) : Z :=
  match p with
  | emergency => 0
  | urgent => 1
  | normal => 2
  | low => 3
  end.

(** The comparator handed to [sort]. *)
Definition compareTodos (a b : Todo) : Z :=
  if negb (depth a =? depth b) then 0
  else priorityOrder (priority a) - priorityOrder (priority b).

(** [Array.prototype.sort] is a built-in of the JavaScript engine, not code
    of the component.  ECMAScript requires it to be stable and fixes its
    result whenever the comparator is a consistent comparison; for other
    comparators the order is left to the engine.  [compareTodos] is
    consistent exactly on the stores singled out by [consistentStore] below.
    The built-in is modelled by the straight insertion sort on arrays: the
    elements are taken from left to right and each one is moved towards the
    front past every element that the comparator ranks strictly after it.
    [revPrefix] is the sorted prefix with its last element first. *)
Section ArraySort.
Context {A : Type} (comparefn : A → A → Z).

Fixpoint insertBack (item : A) (revPrefix : list A) : list A :=
  match revPrefix with
  | [] => [item]
  | swap :: rest =>
    if comparefn swap item <=? 0 then item :: swap :: rest
    else swap :: insertBack item rest
  end.

Definition Array_sort (array : list A) : list A :=
  rev (fold_left (λ revPrefix item, insertBack item revPrefix) array []).

End ArraySort.

(** [const sortedTodos = [...todos].sort(...)] *)
Definition sortedTodos (todos : list Todo) : list Todo :=
  Array_sort compareTodos todos.

(** The insertion sort stands for the built-in faithfully on the stores on
    which the comparator is consistent: there every conforming sort returns
    the same array.  On the other stores it shows what one conforming
    algorithm does.  A second conforming algorithm is the stable bottom-up
    merge sort: the array is cut into runs of one element, and in every pass
    neighbouring runs are merged two by two, the element of the left run
    going first unless the comparator ranks it strictly after the element of
    the right run.  After [length array] passes (fewer suffice) one run is
    left. *)
Section MergeSort.
Context {A : Type} (comparefn : A → A → Z).

Fixpoint merge (xs : list A) : list A → list A :=
  fix mergeRight (ys : list A) : list A :=
    match xs, ys with
    | [], _ => ys
    | _, [] => xs
    | a :: xs', b :: ys' =>
      if comparefn a b <=? 0 then a :: merge xs' ys
      else b :: mergeRight ys'
    end.

Fixpoint mergePairs (runs : list (list A)) : list (list A) :=
  match runs with
  | r1 :: r2 :: rest => merge r1 r2 :: mergePairs rest
  | _ => runs
  end.

Fixpoint mergePasses (n : nat) (runs : list (list A)) : list (list A) :=
  match n with
  | O => runs
  | S n' => mergePasses n' (mergePairs runs)
  end.

Definition mergeSort (array : list A) : list A :=
  concat (mergePasses (length array) ((λ x, [x]) <$> array)).

End MergeSort.

(** ** Input handling *)

(** The [useState] cells of the component that the handlers below read or
    write ([currentDate] only feeds the heading). *)
Record AppState := mkAppState {
  todos : list Todo;
  inputValue : string;
  inputDepth : Z;
  inputPriority : Priority
}.

Definition setTodos (st : AppState) (v : list Todo) : AppState :=
  {| todos := v; inputValue := inputValue st;
     inputDepth := inputDepth st; inputPriority := inputPriority st |}.
Definition setInputValue (st : AppState) (v : string) : AppState :=
  {| todos := todos st; inputValue := v;
     inputDepth := inputDepth st; inputPriority := inputPriority st |}.
Definition setInputDepth (st : AppState) (v : Z) : AppState :=
  {| todos := todos st; inputValue := inputValue st;
     inputDepth := v; inputPriority := inputPriority st |}.
Definition setInputPriority (st : AppState) (v : Priority) : AppState :=
  {| todos := todos st; inputValue := inputValue st;
     inputDepth := inputDepth st; inputPriority := v |}.

(** [useState([])], [useState('')], [useState(0)], [useState('normal')] *)
Definition initialState : AppState :=
  {| todos := []; inputValue := ""; inputDepth := 0; inputPriority := normal |}.

(** The fields of the keyboard event that [handleKeyDown] reads. *)
Record KeyboardEvent := mkKeyboardEvent {
  key : string;
  shiftKey : bool;
  isComposing : bool
}.

Definition priorities : list Priority := [low; normal; urgent; emergency].

(** [Array.prototype.indexOf], [-1] when absent. *)
Fixpoint indexOf (l : list Priority) (p : Priority) : Z :=
  match l with
  | [] => -1
  | x :: l' =>
    if bool_decide (x = p) then 0
    else let r := indexOf l' p in if r <? 0 then -1 else r + 1
  end.

(** [priorities[i]]; every index the handler computes is in range. *)
Definition priorityAt (i : Z) (fallback : Priority) : Priority :=
  default fallback (priorities !! Z.to_nat i).

(** What the user can do to the component.  A key press carries the clock
    reading at the time it is handled. *)
(** The cycle low, normal, urgent, emergency, low, one step forwards and one
    step backwards. *)
Definition nextPriority (p : Priority) : Priority :=
  match p with
  | low => normal
  | normal => urgent
  | urgent => emergency
  | emergency => low
  end.

Definition prevPriority (p : Priority) : Priority :=
  match p with
  | low => emergency
  | normal => low
  | urgent => normal
  | emergency => urgent
  end.

Inductive Event :=
| KeyDown (e : KeyboardEvent) (now : Z)
| Change (value : string)
| Toggle (id' : string).

Section Handlers.
(** [String.prototype.trim] is a built-in; the handlers are defined for an
    arbitrary trimming function. *)
Variable trim : string → string.

(** [addTodo]; [now] is the value read from [Date.now()], and
    [Number.prototype.toString] of an integer is its decimal numeral. *)
Definition addTodo (now : Z) (st : AppState) : AppState :=
  if bool_decide (trim (inputValue st) = "") then st
  else
    let newTodo :=
      {| id := pretty now;
         text := trim (inputValue st);
         completed := false;
         depth := inputDepth st;
         priority := inputPriority st |} in
    setInputPriority
      (setInputValue (setTodos st (todos st ++ [newTodo])) "") normal.

Definition handleKeyDown (now : Z) (st : AppState) (e : KeyboardEvent)
  : AppState :=
  if bool_decide (key e = "Tab") then
    if shiftKey e then setInputDepth st (Z.max 0 (inputDepth st - 1))
    else setInputDepth st (Z.min 2 (inputDepth st + 1))
  else if bool_decide (key e = "ArrowUp") then
    let currentIndex := indexOf priorities (inputPriority st) in
    let nextIndex := Z.rem (currentIndex + 1) (Z.of_nat (length priorities)) in
    setInputPriority st (priorityAt nextIndex (inputPriority st))
  else if bool_decide (key e = "ArrowDown") then
    let currentIndex := indexOf priorities (inputPriority st) in
    let prevIndex :=
      if currentIndex =? 0 then Z.of_nat (length priorities) - 1
      else currentIndex - 1 in
    setInputPriority st (priorityAt prevIndex (inputPriority st))
  else if bool_decide (key e = "Backspace")
          && bool_decide (inputValue st = "") && (0 <? inputDepth st) then
    setInputDepth st (inputDepth st - 1)
  else if bool_decide (key e = "Enter")
          && negb (bool_decide (trim (inputValue st) = ""))
          && negb (isComposing e) then
    addTodo now st
  else st.

(** One handler run.  State cells change only through their setters, so a
    handler that throws leaves the state as it was. *)
Definition step (st : AppState) (ev : Event) : AppState :=
  match ev with
  | KeyDown e now => handleKeyDown now st e
  | Change value => setInputValue st value
  | Toggle id' =>
    match toggleTodo (todos st) id' with
    | Normal updated => setTodos st updated
    | Throw _ => st
    end
  end.

Definition run (st : AppState) (evs : list Event) : AppState :=
  fold_left step evs st.
End Handlers.


(** A trimming function for examples: it strips the ASCII white space and
    line terminators that [String.prototype.trim] strips. *)
Definition isSpace (c : ascii) : bool :=
  bool_decide (c ∈ [" "; "009"; "010"; "011"; "012"; "013"]%char).

Fixpoint trimStart (s : string) : string :=
  match s with
  | String c s' => if isSpace c then trimStart s' else s
  | EmptyString => EmptyString
  end.

Definition trimAscii (s : string) : string :=
  String.rev (trimStart (String.rev (trimStart s))).

(** An item for examples: id, text, depth, completed, priority. *)
Definition item (i t : string) (d : Z) (c : bool) (p : Priority) : Todo :=
  {| id := i; text := t; completed := c; depth := d; priority := p |}.

(** ** Views of the loops on the part of the array they scan

    Each loop reads the array from some index on and writes only there.  The
    functions of this section describe its effect on that suffix; the lemmas
    [*_view] tie them to the index-based definitions above. *)

(** Items at depth [d + 1] in front of the first item at depth [<= d]. *)
Fixpoint directChildren (d : Z) (s : list Todo) : list Todo :=
  match s with
  | [] => []
  | x :: rest =>
    if depth x <=? d then []
    else if depth x =? d + 1 then x :: directChildren d rest
    else directChildren d rest
  end.

(** The cascade below a parent of depth [d], on the items after it. *)
Fixpoint cascade (n : nat) (d : Z) (s : list Todo) : list Todo :=
  match n, s with
  | S n', x :: rest =>
    if depth x <=? d then s
    else if depth x =? d + 1 then
      set_completed x true :: cascade n' d (cascade n' (d + 1) rest)
    else x :: cascade n' d rest
  | _, _ => s
  end.

(** The decision taken for one item by the upward pass, given the items
    after it. *)
Definition recompute (todo : Todo) (rest : list Todo) : Todo :=
  if depth todo <? 2 then
    let children := directChildren (depth todo) rest in
    if (0 <? length children)%nat then
      if forallb completed children && negb (completed todo) then
        set_completed todo true
      else if existsb (λ child, negb (completed child)) children
              && completed todo then
        set_completed todo false
      else todo
    else todo
  else todo.

Definition upStep (todo : Todo) (rest : list Todo) : list Todo :=
  recompute todo rest :: rest.

(** The maximal run of items deeper than [d] at the front of [s]. *)
Fixpoint descendantRun (d : Z) (s : list Todo) : list Todo :=
  match s with
  | [] => []
  | x :: rest => if d <? depth x then x :: descendantRun d rest else []
  end.

(** The descendants of the item at index [p]. *)
Definition descendants (l : list Todo) (p : nat) : list Todo :=
  match l !! p with
  | Some t => descendantRun (depth t) (drop (S p) l)
  | None => []
  end.

(** No item of [s] is more than one level deeper than the item before it,
    [prev] being the depth of the item in front of [s]. *)
Fixpoint chained (prev : Z) (s : list Todo) : bool :=
  match s with
  | [] => true
  | x :: rest => (depth x <=? prev + 1) && chained (depth x) rest
  end.

(** Two items that differ at most in [completed]. *)
Definition sameFrame (a b : Todo) : Prop :=
  id a = id b ∧ text a = text b ∧ depth a = depth b ∧ priority a = priority b.

Definition isCompleted (t : Todo) : Prop := completed t = true.

(** [s] is empty or starts with an item of depth at most [d]: a scan for
    items deeper than [d] ends at its front. *)
Definition stopsAt (d : Z) (s : list Todo) : Prop :=
  match s with
  | [] => True
  | y :: _ => depth y ≤ d
  end.

(** [a] may stand directly before [b] in an array sorted with [comparefn]. *)
Definition inOrder {A : Type} (comparefn : A → A → Z) (a b : A) : Prop :=
  comparefn a b ≤ 0.

(** *** Properties of a toggled store *)

(** Every item of the run of descendants of index [k] in [todos] is
    completed in [r]. *)
Definition runCompleted (todos : list Todo) (k : nat) (r : list Todo) : Prop :=
  ∀ j, (k < j ≤ k + length (descendants todos k))%nat →
    ∃ x, r !! j = Some x ∧ completed x = true.

(** The items at [k] and [j] are distinct items with the same parent: they
    have one depth and nothing between them is shallower. *)
Definition isSibling (l : list Todo) (k j : nat) : bool :=
  match l !! k, l !! j with
  | Some t, Some s =>
    negb (k =? j)%nat && (depth s =? depth t)
    && forallb (λ x, depth t <=? depth x)
         (take (k `max` j - k `min` j) (drop (k `min` j) l))
  | _, _ => false
  end.

(** *** Properties of a displayed order *)

(** Items of equal depth appear in ascending priority rank. *)
Definition ascendingWithinDepth (out : list Todo) : Prop :=
  ∀ i j a b, (i < j)%nat → out !! i = Some a → out !! j = Some b →
    depth a = depth b →
    priorityOrder (priority a) ≤ priorityOrder (priority b).

(** Two items of differing depth appear in [out] in the order they have in
    [store]: the occurrences of the two, read from left to right, are the
    same in both. *)
Definition crossDepthOrderKept (store out : list Todo) : Prop :=
  ∀ a b, depth a ≠ depth b →
    filter (λ x, x = a ∨ x = b) out = filter (λ x, x = a ∨ x = b) store.

(** Stores on which [compareTodos] is a consistent comparison in the sense
    of ECMAScript (comparing equal is transitive): all items have one depth,
    or items of equal depth have equal priority. *)
Definition uniformDepth (l : list Todo) : bool :=
  forallb (λ a, forallb (λ b, depth a =? depth b) l) l.

Definition flatPriorities (l : list Todo) : bool :=
  forallb (λ a, forallb (λ b,
    negb (depth a =? depth b) || bool_decide (priority a = priority b)) l) l.

Definition consistentStore (l : list Todo) : bool :=
  uniformDepth l || flatPriorities l.

(** What every sort that meets ECMAScript does with [compareTodos]: it
    returns a permutation of the array; on a consistent store the neighbours
    of the result are in comparator order; and a consistent store that is in
    comparator order already is returned as it is (the sort is stable). *)
Definition conformingSort (sort : list Todo → list Todo) : Prop :=
  (∀ l, sort l ≡ₚ l)
  ∧ (∀ l, consistentStore l = true → Sorted (inOrder compareTodos) (sort l))
  ∧ (∀ l, consistentStore l = true →
          Sorted (inOrder compareTodos) l → sort l = l).

(** The clock readings of the key presses of a trace. *)
Definition timestamps (evs : list Event) : list Z :=
  omap (λ ev, match ev with KeyDown _ now => Some now | _ => None end) evs.

(** *** Sample traces and stores *)

Definition enterKey : KeyboardEvent :=
  {| key := "Enter"; shiftKey := false; isComposing := false |}.
Definition tabKey : KeyboardEvent :=
  {| key := "Tab"; shiftKey := false; isComposing := false |}.
Definition shiftTabKey : KeyboardEvent :=
  {| key := "Tab"; shiftKey := true; isComposing := false |}.
Definition arrowUpKey : KeyboardEvent :=
  {| key := "ArrowUp"; shiftKey := false; isComposing := false |}.
Definition arrowDownKey : KeyboardEvent :=
  {| key := "ArrowDown"; shiftKey := false; isComposing := false |}.

(** Typing [s] into the empty field and pressing Enter at time [now]. *)
Definition typeAndEnter (s : string) (now : Z) : list Event :=
  [Change s; KeyDown enterKey now].

(** A root followed directly by an item two levels down: the user adds A,
    presses Tab twice and adds B. *)
Definition gapTrace : list Event :=
  typeAndEnter "A" 1 ++ [KeyDown tabKey 2; KeyDown tabKey 3]
  ++ typeAndEnter "B" 4.

Definition gapStore : list Todo :=
  [item "1" "A" 0 false normal; item "4" "B" 2 false normal].

(** A family P > L, S is entered and completed through P; then the sub-item
    C is added, which lands below S. *)
Definition familyTrace : list Event :=
  typeAndEnter "P" 1 ++ [KeyDown tabKey 2] ++ typeAndEnter "L" 3
  ++ typeAndEnter "S" 4 ++ [Toggle "1"; KeyDown tabKey 5]
  ++ typeAndEnter "C" 6.

Definition familyStore : list Todo :=
  [item "1" "P" 0 true normal; item "3" "L" 1 true normal;
   item "4" "S" 1 true normal; item "6" "C" 2 false normal].

(** Two roots in descending rank order with a child between them. *)
Definition mixedTrace : list Event :=
  [KeyDown arrowDownKey 1] ++ typeAndEnter "A" 2
  ++ [KeyDown tabKey 3] ++ typeAndEnter "B" 4
  ++ [KeyDown shiftTabKey 5; KeyDown arrowUpKey 6; KeyDown arrowUpKey 7]
  ++ typeAndEnter "C" 8.

Definition mixedStore : list Todo :=
  [item "2" "A" 0 false low; item "4" "B" 1 false normal;
   item "8" "C" 0 false emergency].

(** A root with two children and a grandchild under the first child. *)
Definition treeStore : list Todo :=
  [item "1" "A" 0 false normal; item "2" "B" 1 false urgent;
   item "3" "C" 2 false low; item "4" "D" 1 false emergency].

(** Three roots. *)
Definition rootsStore : list Todo :=
  [item "1" "A" 0 false low; item "2" "B" 0 true emergency;
   item "3" "C" 0 false urgent].

(** Two items typed and committed while the clock reads the same value. *)
Definition sameTickTrace : list Event :=
  typeAndEnter "a" 1000 ++ typeAndEnter "b" 1000.

(** A family P > L, S with every item completed. *)
Definition doneFamilyStore : list Todo :=
  [item "1" "P" 0 true normal; item "3" "L" 1 true normal;
   item "4" "S" 1 true normal].

(** A root, a child and a grandchild, all completed. *)
Definition chainStore : list Todo :=
  [item "1" "A" 0 true normal; item "2" "B" 1 true normal;
   item "3" "C" 2 true normal].

(** The store that [sameTickTrace] produces: two roots with one id. *)
Definition sameTickStore : list Todo :=
  [item "1000" "a" 0 false normal; item "1000" "b" 0 false normal].

(** Two sub-items interleaved with three roots of rising urgency: the user
    adds y one level down, a at the top with priority low, x one level down,
    c at the top with priority urgent and p at the top with priority
    emergency. *)
Definition interleavedTrace : list Event :=
  [KeyDown tabKey 0] ++ typeAndEnter "y" 1
  ++ [KeyDown shiftTabKey 1; KeyDown arrowDownKey 1] ++ typeAndEnter "a" 2
  ++ [KeyDown tabKey 2] ++ typeAndEnter "x" 3
  ++ [KeyDown shiftTabKey 3; KeyDown arrowUpKey 3] ++ typeAndEnter "c" 4
  ++ [KeyDown arrowUpKey 4; KeyDown arrowUpKey 4] ++ typeAndEnter "p" 5.

Definition interleavedStore : list Todo :=
  [item "1" "y" 1 false normal; item "2" "a" 0 false low;
   item "3" "x" 1 false normal; item "4" "c" 0 false urgent;
   item "5" "p" 0 false emergency].

(** A key press without effect on the store, then two commits; the first
    commit is handled at the clock reading of the key press before it. *)
Definition tabThenTwoTrace : list Event :=
  [KeyDown tabKey 5] ++ typeAndEnter "a" 5 ++ typeAndEnter "b" 6.

Definition backspaceKey : KeyboardEvent :=
  {| key := "Backspace"; shiftKey := false; isComposing := false |}.

(** An empty draft at depth 2. *)
Definition emptyDraftState : AppState :=
  {| todos := rootsStore; inputValue := "";
     inputDepth := 2; inputPriority := urgent |}.

Definition draftState : AppState :=
  {| todos := rootsStore; inputValue := "  buy milk ";
     inputDepth := 1; inputPriority := urgent |}.

Definition blankDraftState : AppState :=
  {| todos := rootsStore; inputValue := "   ";
     inputDepth := 2; inputPriority := low |}.

(** *** Presentation helpers of the component *)

Definition getPriorityLabel (p : Priority) : string :=
  match p with
  | emergency => "비상!"
  | urgent => "긴급"
  | normal => "보통"
  | low => "여유"
  end.

Definition getPriorityStyle (p : Priority) : string :=
  match p with
  | emergency => "bg-red-100"
  | urgent => "bg-orange-50"
  | normal => "bg-white"
  | low => "bg-green-50"
  end.

Definition getPriorityTextStyle (p : Priority) : string :=
  match p with
  | emergency => "text-red-800 font-bold"
  | urgent => "text-orange-700"
  | normal => "text-yellow-700"
  | low => "text-green-700"
  end.

(** *** Further notions *)

(** The condition under which [handleKeyDown] reaches [addTodo] and the
    latter passes its guard. *)
Definition commits (trim : string → string) (st : AppState)
    (e : KeyboardEvent) : bool :=
  bool_decide (key e = "Enter")
  && negb (bool_decide (trim (inputValue st) = ""))
  && negb (isComposing e).

(** The clock readings that become ids along a trace: [Date.now()] is read
    in [addTodo] only, so these are the readings of the key presses that
    commit, in the state in which each of them is handled. *)
Fixpoint commitTimes (trim : string → string) (st : AppState)
    (evs : list Event) : list Z :=
  match evs with
  | [] => []
  | ev :: evs' =>
    match ev with
    | KeyDown e now => if commits trim st e then [now] else []
    | _ => []
    end ++ commitTimes trim (step trim st ev) evs'
  end.

(** The order by priority rank alone. *)
Definition rankLe (a b : Todo) : Prop :=
  priorityOrder (priority a) ≤ priorityOrder (priority b).

(** What every item created through the input field satisfies. *)
Definition wellFormedItem (x : Todo) : Prop :=
  0 ≤ depth x ≤ 2 ∧ text x ≠ "".

(** [b] is [a] with, possibly, an open item turned into a completed one. *)
Definition flagLe (a b : Todo) : Prop :=
  sameFrame a b ∧ (completed a = true → completed b = true).

(** A store that the upward pass leaves as it is. *)
Definition settled (l : list Todo) : Prop := updateParentCompletion l = l.

(** The item at [k] is a direct child of the item at [p]: it is one level
    deeper and everything between the two is deeper than the parent. *)
Definition isDirectChild (l : list Todo) (p k : nat) : bool :=
  match l !! p, l !! k with
  | Some a, Some c =>
    (p <? k)%nat && (depth c =? depth a + 1)
    && forallb (λ x, depth a <? depth x) (take (k - S p) (drop (S p) l))
  | _, _ => false
  end.

(** The items of depth [d] and priority [p], the groups within which the
    comparator ranks nothing before anything else. *)
Definition sameGroup (d : Z) (p : Priority) (x : Todo) : Prop :=
  depth x = d ∧ priority x = p.

Global Instance sameGroup_dec d p x : Decision (sameGroup d p x).
Proof. unfold sameGroup. apply _. Defined.

(** *** Basic facts *)

Lemma sameFrame_refl a : sameFrame a a.
Proof. by repeat split. Qed.

Lemma sameFrame_trans a b c : sameFrame a b → sameFrame b c → sameFrame a c.
Proof. unfold sameFrame. intuition congruence. Qed.

Lemma sameFrame_set_completed a c : sameFrame a (set_completed a c).
Proof. by repeat split. Qed.

Lemma sameFrame_list_refl (l : list Todo) : Forall2 sameFrame l l.
Proof. induction l; constructor; auto using sameFrame_refl. Qed.

Lemma sameFrame_list_trans (l1 l2 l3 : list Todo) :
  Forall2 sameFrame l1 l2 → Forall2 sameFrame l2 l3 → Forall2 sameFrame l1 l3.
Proof.
  intros H. revert l3. induction H; intros l3 H3; inversion H3; subst;
    constructor; eauto using sameFrame_trans.
Qed.

Lemma findIndex_Some p l k :
  findIndex p l = Some k → ∃ t, l !! k = Some t ∧ p t = true.
Proof.
  revert k. induction l as [|x l IH]; intros k; simpl; [done|].
  destruct (p x) eqn:Hp.
  - intros [= <-]. eauto.
  - destruct (findIndex p l) as [k'|]; simpl; [|done].
    intros [= <-]. destruct (IH k' eq_refl) as (t & ? & ?). eauto.
Qed.

Lemma findIndex_None p l :
  findIndex p l = None → Forall (λ t, p t = false) l.
Proof.
  induction l as [|x l IH]; simpl; [constructor|].
  destruct (p x) eqn:Hp; [done|].
  destruct (findIndex p l); simpl; [done|]. constructor; auto.
Qed.

Lemma findIndex_is_Some p l x :
  x ∈ l → p x = true → is_Some (findIndex p l).
Proof.
  induction 1 as [x l|x y l _ IH]; simpl; intros Hp.
  - rewrite Hp. eauto.
  - destruct (p y); [eauto|]. destruct (IH Hp) as [k ->]. simpl. eauto.
Qed.

Lemma id_eqb_true (a : Todo) (s : string) : String.eqb (id a) s = true ↔ id a = s.
Proof. apply String.eqb_eq. Qed.

(** *** The loops seen on the scanned suffix *)

Lemma getDirectChildrenLoop_view n parentTodo pre s acc :
  n = length s →
  getDirectChildrenLoop n parentTodo (pre ++ s) (length pre) acc
  = acc ++ directChildren (depth parentTodo) s.
Proof.
  revert pre s acc. induction n as [|n IH]; intros pre s acc Hn.
  - destruct s; [|done]. simpl. by rewrite app_nil_r.
  - destruct s as [|x rest]; [done|]. simpl in Hn.
    simpl. rewrite list_lookup_middle by done.
    destruct (depth x <=? depth parentTodo); [by rewrite app_nil_r|].
    replace (pre ++ x :: rest) with ((pre ++ [x]) ++ rest)
      by (by rewrite <- app_assoc).
    replace (S (length pre)) with (length (pre ++ [x]))
      by (rewrite length_app; simpl; lia).
    destruct (depth x =? depth parentTodo + 1).
    + rewrite IH by lia. by rewrite <- app_assoc.
    + by rewrite IH by lia.
Qed.

Lemma getDirectChildren_view l p x :
  l !! p = Some x →
  getDirectChildren l p = directChildren (depth x) (drop (S p) l).
Proof.
  intros Hp. unfold getDirectChildren. rewrite Hp.
  pose proof (lookup_lt_Some _ _ _ Hp) as Hlt.
  pose proof (getDirectChildrenLoop_view (length l - S p) x
                (take (S p) l) (drop (S p) l) []) as H.
  rewrite take_drop, length_take, length_drop in H.
  replace (S p `min` length l)%nat with (S p) in H by lia.
  by apply H.
Qed.

(** The direct children, read off the run of descendants. *)
Lemma directChildren_filter d s :
  directChildren d s = filter (λ x, depth x = d + 1) (descendantRun d s).
Proof.
  induction s as [|x s IH]; simpl; [done|].
  destruct (depth x <=? d) eqn:H1.
  - apply Z.leb_le in H1. by rewrite (proj2 (Z.ltb_ge _ _)).
  - apply Z.leb_gt in H1. rewrite (proj2 (Z.ltb_lt _ _)) by done.
    rewrite filter_cons.
    destruct (depth x =? d + 1) eqn:H2.
    + apply Z.eqb_eq in H2. rewrite decide_True by done. by rewrite IH.
    + apply Z.eqb_neq in H2. by rewrite decide_False.
Qed.


Lemma cascade_length n d s : length (cascade n d s) = length s.
Proof.
  revert d s. induction n as [|n IH]; intros d [|x rest]; simpl; try done.
  destruct (depth x <=? d); [done|].
  destruct (depth x =? d + 1); simpl; by rewrite !IH.
Qed.

Lemma updateChildrenLoop_view n parentTodo pre s :
  n = length s →
  updateChildrenLoop n parentTodo true (length pre) (pre ++ s)
  = pre ++ cascade n (depth parentTodo) s.
Proof.
  revert parentTodo pre s.
  induction n as [|n IH]; intros parentTodo pre s Hn.
  - by destruct s.
  - destruct s as [|x rest]; [done|]. simpl in Hn.
    simpl. rewrite list_lookup_middle by done.
    destruct (depth x <=? depth parentTodo); [done|].
    assert (∀ y l, pre ++ y :: l = (pre ++ [y]) ++ l) as Hsnoc
      by (intros; by rewrite <- app_assoc).
    assert (∀ y : Todo, S (length pre) = length (pre ++ [y])) as Hlen
      by (intros; rewrite length_app; simpl; lia).
    destruct (depth x =? depth parentTodo + 1) eqn:Hd.
    + apply Z.eqb_eq in Hd.
      rewrite insert_app_r_alt, Nat.sub_diag by done. simpl.
      rewrite (Hsnoc (set_completed x true)), (Hlen (set_completed x true)).
      rewrite IH by lia. rewrite IH by (rewrite cascade_length; lia).
      simpl. rewrite Hd. by rewrite <- app_assoc.
    + rewrite (Hsnoc x), (Hlen x), IH by lia. by rewrite <- app_assoc.
Qed.

Lemma updateChildrenCompletion_view l p x :
  l !! p = Some x →
  updateChildrenCompletion l p true
  = take (S p) l ++ cascade (length l - S p) (depth x) (drop (S p) l).
Proof.
  intros Hp. unfold updateChildrenCompletion. rewrite Hp.
  pose proof (lookup_lt_Some _ _ _ Hp) as Hlt.
  pose proof (updateChildrenLoop_view (length l - S p) x
                (take (S p) l) (drop (S p) l)) as H.
  rewrite take_drop, length_take, length_drop in H.
  replace (S p `min` length l)%nat with (S p) in H by lia.
  by apply H.
Qed.

(** The recursive call of the source, [updateChildrenCompletion(todoList, i,
    completed)] made inside the loop at index [i], is the inner loop of
    [updateChildrenLoop]. *)
Lemma updateChildrenCompletion_rec todoList i todo c n' :
  todoList !! i = Some todo →
  S n' = (length todoList - i)%nat →
  updateChildrenLoop n' (set_completed todo c) c (S i)
    (<[i := set_completed todo c]> todoList)
  = updateChildrenCompletion (<[i := set_completed todo c]> todoList) i c.
Proof.
  intros Hi Hn. unfold updateChildrenCompletion.
  rewrite list_lookup_insert_eq by (by eapply lookup_lt_Some).
  rewrite length_insert. f_equal. lia.
Qed.

Lemma getDirectChildren_middle pre x s :
  getDirectChildren (pre ++ x :: s) (length pre) = directChildren (depth x) s.
Proof.
  rewrite (getDirectChildren_view _ _ x) by (by apply list_lookup_middle).
  f_equal. rewrite (cons_middle x pre s), app_assoc.
  apply drop_app_length'. rewrite length_app. simpl. lia.
Qed.

Lemma updateParentStep_view pre x s :
  updateParentStep (pre ++ x :: s) (length pre) = pre ++ upStep x s.
Proof.
  unfold updateParentStep, upStep, recompute.
  rewrite list_lookup_middle by done.
  rewrite getDirectChildren_middle.
  rewrite !insert_app_r_alt, !Nat.sub_diag by done. simpl.
  by repeat case_match.
Qed.

Lemma updateParentLoop_view pre s :
  updateParentLoop (length pre) (pre ++ s) = foldr upStep s pre.
Proof.
  revert s. induction pre as [|x pre IH] using rev_ind; intros s; [done|].
  rewrite length_app, Nat.add_comm. simpl.
  replace (length pre) with (length pre + 0)%nat at 1 by lia.
  rewrite <- app_assoc. simpl.
  replace (length pre + 0)%nat with (length pre) by lia.
  rewrite updateParentStep_view, IH. by rewrite foldr_app.
Qed.

Lemma updateParentCompletion_view l :
  updateParentCompletion l = foldr upStep [] l.
Proof.
  unfold updateParentCompletion.
  rewrite <- (app_nil_r l) at 2. apply updateParentLoop_view.
Qed.

(** ** What the passes leave alone *)

Lemma cascade_sameFrame n d s : Forall2 sameFrame s (cascade n d s).
Proof.
  revert d s. induction n as [|n IH]; intros d [|x rest]; simpl;
    try apply sameFrame_list_refl.
  destruct (depth x <=? d); [apply sameFrame_list_refl|].
  destruct (depth x =? d + 1); constructor;
    eauto using sameFrame_refl, sameFrame_set_completed, sameFrame_list_trans.
Qed.

Lemma recompute_sameFrame x rest : sameFrame x (recompute x rest).
Proof.
  unfold recompute.
  repeat case_match; auto using sameFrame_refl, sameFrame_set_completed.
Qed.

Lemma recompute_depth x rest : depth (recompute x rest) = depth x.
Proof. symmetry. apply recompute_sameFrame. Qed.

Lemma foldr_upStep_sameFrame acc pre :
  Forall2 sameFrame (pre ++ acc) (foldr upStep acc pre).
Proof.
  induction pre as [|x pre IH]; simpl; [apply sameFrame_list_refl|].
  unfold upStep at 1. constructor; [apply recompute_sameFrame | done].
Qed.

Lemma foldr_upStep_split acc pre :
  ∃ pre', foldr upStep acc pre = pre' ++ acc ∧ length pre' = length pre.
Proof.
  induction pre as [|x pre (pre' & Heq & Hlen)]; simpl.
  - by exists [].
  - rewrite Heq. exists (recompute x (pre' ++ acc) :: pre'). split; [done|].
    simpl. by rewrite Hlen.
Qed.

Lemma updateParentCompletion_sameFrame l :
  Forall2 sameFrame l (updateParentCompletion l).
Proof.
  rewrite updateParentCompletion_view.
  rewrite <- (app_nil_r l) at 1. apply foldr_upStep_sameFrame.
Qed.

Lemma insert_sameFrame (l : list Todo) k t c :
  l !! k = Some t → Forall2 sameFrame l (<[k := set_completed t c]> l).
Proof.
  intros Hk. rewrite <- (list_insert_id l k t) at 1 by done.
  apply Forall2_insert;
    [apply sameFrame_list_refl | apply sameFrame_set_completed].
Qed.

Lemma updateChildrenCompletion_sameFrame l p :
  Forall2 sameFrame l (updateChildrenCompletion l p true).
Proof.
  destruct (l !! p) as [x|] eqn:Hp.
  - rewrite (updateChildrenCompletion_view _ _ x) by done.
    rewrite <- (take_drop (S p) l) at 1.
    apply Forall2_app; [apply sameFrame_list_refl | apply cascade_sameFrame].
  - unfold updateChildrenCompletion. rewrite Hp. apply sameFrame_list_refl.
Qed.

Lemma toggleDown_sameFrame l k t :
  l !! k = Some t → Forall2 sameFrame l (toggleDown l k t).
Proof.
  intros Hk. unfold toggleDown.
  case_match; eauto using insert_sameFrame, sameFrame_list_trans,
    updateChildrenCompletion_sameFrame.
Qed.

(** [toggleTodo] returns whenever some item carries the id. *)
Lemma toggleTodo_present l id' :
  id' ∈ (id <$> l) →
  ∃ k t, findIndex (λ todo, String.eqb (id todo) id') l = Some k
         ∧ l !! k = Some t
         ∧ id t = id'
         ∧ toggleTodo l id'
           = Normal (updateParentCompletion (toggleDown l k t)).
Proof.
  intros (x & -> & Hx)%list_elem_of_fmap.
  destruct (findIndex_is_Some (λ todo, String.eqb (id todo) (id x)) l x)
    as [k Hk]; [done | by apply String.eqb_refl |].
  destruct (findIndex_Some _ _ _ Hk) as (t & Ht & Hid).
  exists k, t. unfold toggleTodo. rewrite Hk, Ht.
  by apply String.eqb_eq in Hid.
Qed.

Lemma toggleTodo_absent l id' :
  id' ∉ (id <$> l) → toggleTodo l id' = Throw TypeError.
Proof.
  intros Hnot. unfold toggleTodo.
  destruct (findIndex _ l) as [k|] eqn:Hk; [|done].
  destruct (findIndex_Some _ _ _ Hk) as (t & Ht & Hid).
  apply String.eqb_eq in Hid. destruct Hnot.
  apply list_elem_of_fmap. exists t. split; [done|].
  by eapply list_elem_of_lookup_2.
Qed.

(** ** The upward pass, item by item *)

Lemma forallb_existsb_negb {A} (f : A → bool) l :
  existsb (λ x, negb (f x)) l = negb (forallb f l).
Proof. induction l as [|x l IH]; simpl; [done|]. rewrite IH. by destruct (f x). Qed.

Lemma recompute_children x rest :
  depth x < 2 →
  directChildren (depth x) rest ≠ [] →
  completed (recompute x rest) = forallb completed (directChildren (depth x) rest).
Proof.
  intros Hd Hne. unfold recompute.
  apply Z.ltb_lt in Hd. rewrite Hd.
  destruct (directChildren (depth x) rest) as [|c cs] eqn:Hc; [done|].
  replace (0 <? length (c :: cs))%nat with true by done.
  rewrite forallb_existsb_negb.
  destruct (forallb completed (c :: cs)), (completed x) eqn:Hx; simpl; done.
Qed.

Lemma recompute_no_children x rest :
  directChildren (depth x) rest = [] → recompute x rest = x.
Proof. intros Hc. unfold recompute. rewrite Hc. simpl. by case_match. Qed.

Lemma recompute_deep x rest : 2 ≤ depth x → recompute x rest = x.
Proof.
  intros Hd. unfold recompute.
  destruct (depth x <? 2) eqn:H; [apply Z.ltb_lt in H; lia | done].
Qed.

Lemma recompute_keep x rest :
  completed x = true →
  Forall isCompleted (directChildren (depth x) rest) →
  recompute x rest = x.
Proof.
  intros Hx Hall. unfold recompute.
  rewrite forallb_existsb_negb.
  replace (forallb completed (directChildren (depth x) rest)) with true.
  - rewrite Hx. simpl. by repeat case_match.
  - symmetry. apply forallb_forall. intros c Hc.
    rewrite Forall_forall in Hall. apply Hall. by apply list_elem_of_In.
Qed.

(** Every item of the result is the decision taken for the item of the input
    at the same index, given the part of the result after it. *)
Lemma foldr_upStep_lookup l i t :
  foldr upStep [] l !! i = Some t →
  ∃ x, l !! i = Some x ∧ t = recompute x (drop (S i) (foldr upStep [] l)).
Proof.
  revert i. induction l as [|x l IH]; intros i; simpl; [done|].
  destruct i as [|i]; simpl.
  - intros [= <-]. exists x. by rewrite drop_0.
  - intros Hi. by apply IH.
Qed.

(** ** Runs of descendants *)

Lemma descendantRun_split d s :
  ∃ tail, s = descendantRun d s ++ tail ∧ stopsAt d tail.
Proof.
  induction s as [|x s (tail & Hs & Hstop)]; simpl.
  - by exists [].
  - destruct (d <? depth x) eqn:Hx.
    + exists tail. split; [simpl; by f_equal | done].
    + exists (x :: s). split; [done|]. simpl. by apply Z.ltb_ge in Hx.
Qed.

Lemma descendantRun_deeper d s : Forall (λ x, d < depth x) (descendantRun d s).
Proof.
  induction s as [|x s IH]; simpl; [constructor|].
  destruct (d <? depth x) eqn:Hx; constructor; [by apply Z.ltb_lt | done].
Qed.

Lemma descendantRun_sameFrame d a b :
  Forall2 sameFrame a b →
  Forall2 sameFrame (descendantRun d a) (descendantRun d b).
Proof.
  induction 1 as [|x y a b Hxy _ IH]; simpl; [constructor|].
  pose proof Hxy as (_ & _ & Hd & _). rewrite <- Hd.
  destruct (d <? depth x); constructor; done.
Qed.

Lemma chained_sameFrame p a b :
  Forall2 sameFrame a b → chained p a = chained p b.
Proof.
  intros H. revert p. induction H as [|x y a b Hxy _ IH]; intros p; simpl; [done|].
  destruct Hxy as (_ & _ & <- & _). by rewrite IH.
Qed.

Lemma chained_descendantRun_mono p d d' s :
  d ≤ d' →
  chained p (descendantRun d s) = true →
  chained p (descendantRun d' s) = true.
Proof.
  intros Hd. revert p. induction s as [|x s IH]; intros p; simpl; [done|].
  destruct (d' <? depth x) eqn:H'; [|done].
  apply Z.ltb_lt in H'.
  replace (d <? depth x) with true by (symmetry; apply Z.ltb_lt; lia).
  simpl. intros [? ?]%andb_true_iff. apply andb_true_iff. auto.
Qed.

Lemma descendantRun_nil_of_chained p d d' s :
  chained p (descendantRun d s) = true →
  p + 1 ≤ d' → d ≤ d' → descendantRun d' s = [].
Proof.
  destruct s as [|x s]; simpl; [done|]. intros Hch Hp Hd.
  destruct (d <? depth x) eqn:Hx.
  - simpl in Hch. apply andb_true_iff in Hch as [Hle%Z.leb_le _].
    replace (d' <? depth x) with false; [done|].
    symmetry. apply Z.ltb_ge. lia.
  - apply Z.ltb_ge in Hx.
    replace (d' <? depth x) with false; [done|].
    symmetry. apply Z.ltb_ge. lia.
Qed.

Lemma directChildren_Forall (P : Todo → Prop) d s :
  Forall P s → Forall P (directChildren d s).
Proof.
  induction 1 as [|x s Hx _ IH]; simpl; [constructor|].
  repeat case_match; auto.
Qed.

Lemma directChildren_app_stop d s tail :
  stopsAt d tail → directChildren d (s ++ tail) = directChildren d s.
Proof.
  intros Hstop. induction s as [|x s IH]; simpl.
  - destruct tail as [|y tail]; [done|]. simpl in *.
    by replace (depth y <=? d) with true by (symmetry; by apply Z.leb_le).
  - by rewrite IH.
Qed.

Lemma stopsAt_mono d d' s : d ≤ d' → stopsAt d s → stopsAt d' s.
Proof. destruct s; simpl; [done | lia]. Qed.

Lemma stopsAt_foldr_upStep d s : stopsAt d s → stopsAt d (foldr upStep [] s).
Proof. destruct s; simpl; [done|]. by rewrite recompute_depth. Qed.

(** A block of completed items, all deeper than what follows it, is left as
    it is by the upward pass. *)
Lemma foldr_upStep_completed d run tail :
  Forall (λ x, d < depth x ∧ isCompleted x) run →
  stopsAt d tail →
  foldr upStep tail run = run ++ tail.
Proof.
  intros Hrun Hstop. induction Hrun as [|x run [Hx Hc] Hrun IH]; simpl; [done|].
  rewrite IH. unfold upStep. f_equal.
  apply recompute_keep; [done|].
  rewrite directChildren_app_stop by (eapply stopsAt_mono; [|done]; lia).
  apply directChildren_Forall.
  eapply Forall_impl; [exact Hrun | by intros ? [_ ?]].
Qed.

(** The cascade completes the whole run below the parent when no item of the
    run skips a level.  [prev] is the depth of the item before [s]; the items
    at the front of [s] that are deeper than a child were handled by the
    recursive call and are completed already. *)
Lemma cascade_run n d prev s :
  n = length s →
  chained prev (descendantRun d s) = true →
  Forall isCompleted (descendantRun (d + 1) s) →
  Forall isCompleted (descendantRun d (cascade n d s)).
Proof.
  revert d prev s.
  induction n as [|n IH]; intros d prev [|x rest] Hn Hch Hentry;
    try done; try (simpl; constructor).
  simpl in Hn. simpl.
  destruct (depth x <=? d) eqn:H1.
  { apply Z.leb_le in H1. simpl.
    replace (d <? depth x) with false; [constructor|].
    symmetry. apply Z.ltb_ge. lia. }
  apply Z.leb_gt in H1.
  simpl in Hch, Hentry.
  replace (d <? depth x) with true in Hch by (symmetry; by apply Z.ltb_lt).
  simpl in Hch. apply andb_true_iff in Hch as [_ Hch].
  destruct (depth x =? d + 1) eqn:H2.
  - apply Z.eqb_eq in H2. simpl.
    replace (d <? depth x) with true by (symmetry; by apply Z.ltb_lt).
    constructor; [done|].
    apply (IH d (depth x)).
    + rewrite cascade_length. lia.
    + rewrite <- (chained_sameFrame _ _ _
        (descendantRun_sameFrame d _ _ (cascade_sameFrame n (d + 1) rest))).
      done.
    + apply (IH (d + 1) (depth x)); [lia | |].
      * eapply chained_descendantRun_mono; [|done]. lia.
      * rewrite (descendantRun_nil_of_chained (depth x) d) by (done || lia).
        constructor.
  - apply Z.eqb_neq in H2. simpl.
    replace (d <? depth x) with true by (symmetry; by apply Z.ltb_lt).
    replace (d + 1 <? depth x) with true in Hentry
      by (symmetry; apply Z.ltb_lt; lia).
    inversion Hentry; subst.
    constructor; [done|].
    apply (IH d (depth x)); [lia | done | done].
Qed.

Lemma descendantRun_insert_stop d s i y y' :
  s !! i = Some y → depth y ≤ d → depth y' ≤ d →
  descendantRun d (<[i := y']> s) = descendantRun d s.
Proof.
  revert i. induction s as [|a s IH]; intros i Hi Hy Hy'; [done|].
  destruct i as [|i]; simpl in *.
  - injection Hi as ->.
    by rewrite !(proj2 (Z.ltb_ge _ _)) by done.
  - destruct (d <? depth a); [|done]. f_equal. by apply IH.
Qed.

(** An item that is completed together with all its descendants comes out
    of the upward pass as it went in. *)
Lemma updateParentCompletion_keeps l j x :
  l !! j = Some x →
  completed x = true →
  Forall isCompleted (descendants l j) →
  updateParentCompletion l !! j = Some x.
Proof.
  intros Hj Hx Hrun. unfold descendants in Hrun. rewrite Hj in Hrun.
  destruct (descendantRun_split (depth x) (drop (S j) l))
    as (tail & Hsplit & Hstop).
  set (run := descendantRun (depth x) (drop (S j) l)) in *.
  rewrite updateParentCompletion_view.
  rewrite <- (take_drop_middle l j x Hj), Hsplit.
  rewrite foldr_app. simpl. rewrite foldr_app.
  rewrite (foldr_upStep_completed (depth x) run).
  - unfold upStep at 2.
    rewrite recompute_keep; [|done|].
    + destruct (foldr_upStep_split (x :: run ++ foldr upStep [] tail) (take j l))
        as (pre' & -> & Hlen).
      rewrite length_take in Hlen.
      pose proof (lookup_lt_Some _ _ _ Hj).
      rewrite lookup_app_r by lia.
      replace (j - length pre')%nat with 0%nat by lia. done.
    + rewrite directChildren_app_stop by (by apply stopsAt_foldr_upStep).
      by apply directChildren_Forall.
  - apply Forall_and. split; [apply descendantRun_deeper | done].
  - by apply stopsAt_foldr_upStep.
Qed.

(** A completed run below index [k] survives the upward pass. *)
Lemma updateParentCompletion_keeps_run pre d s j :
  Forall isCompleted (descendantRun d s) →
  (length pre ≤ j < length pre + length (descendantRun d s))%nat →
  ∃ x, updateParentCompletion (pre ++ s) !! j = Some x ∧ completed x = true.
Proof.
  intros Hrun Hj.
  destruct (descendantRun_split d s) as (tail & Hsplit & Hstop).
  set (run := descendantRun d s) in *.
  rewrite updateParentCompletion_view, Hsplit.
  rewrite !foldr_app.
  rewrite (foldr_upStep_completed d run).
  - destruct (foldr_upStep_split (run ++ foldr upStep [] tail) pre)
      as (pre' & -> & Hlen).
    rewrite lookup_app_r by lia.
    rewrite lookup_app_l by lia.
    destruct (lookup_lt_is_Some_2 run (j - length pre')) as [x Hx]; [lia|].
    exists x. split; [done|].
    by eapply (Forall_lookup_1 isCompleted).
  - apply Forall_and. split; [apply descendantRun_deeper | done].
  - by apply stopsAt_foldr_upStep.
Qed.

(** Completing an item completes its whole run of descendants, provided no
    item of the run skips a level. *)
Lemma toggle_completes_run l k t j :
  l !! k = Some t →
  completed t = false →
  chained (depth t) (descendants l k) = true →
  (k < j ≤ k + length (descendants l k))%nat →
  ∃ x, updateParentCompletion (toggleDown l k t) !! j = Some x
       ∧ completed x = true.
Proof.
  intros Hk Hc Hch Hj. unfold descendants in *. rewrite Hk in *.
  pose proof (lookup_lt_Some _ _ _ Hk) as Hlt.
  unfold toggleDown. rewrite Hc. simpl.
  set (t' := set_completed t true).
  rewrite (updateChildrenCompletion_view _ _ t')
    by (by apply list_lookup_insert_eq).
  rewrite drop_insert_lt, length_insert by lia.
  change (depth t') with (depth t).
  set (s := drop (S k) l) in *.
  assert (length s = length l - S k)%nat as Hs
    by (unfold s; by rewrite length_drop).
  rewrite <- Hs.
  pose proof (descendantRun_sameFrame (depth t) _ _
                (cascade_sameFrame (length s) (depth t) s)) as Hframe.
  apply (updateParentCompletion_keeps_run _ (depth t)).
  - apply (cascade_run _ _ (depth t)); [done | done |].
    rewrite (descendantRun_nil_of_chained (depth t) (depth t)) by (done || lia).
    constructor.
  - rewrite length_take, length_insert.
    rewrite <- (Forall2_length _ _ _ Hframe). lia.
Qed.

(** Un-completing an item leaves alone every other completed item of the
    same depth whose descendants are all completed. *)
Lemma toggle_keeps_sibling l k t j s :
  l !! k = Some t →
  completed t = true →
  j ≠ k →
  l !! j = Some s →
  depth s = depth t →
  completed s = true →
  Forall isCompleted (descendants l j) →
  updateParentCompletion (toggleDown l k t) !! j = Some s.
Proof.
  intros Hk Hc Hjk Hj Hd Hs Hrun.
  unfold toggleDown. rewrite Hc. simpl.
  set (t' := set_completed t false).
  assert (<[k := t']> l !! j = Some s) as Hj'
    by (by rewrite list_lookup_insert_ne).
  apply updateParentCompletion_keeps; [done | done |].
  unfold descendants in *. rewrite Hj in Hrun. rewrite Hj'.
  destruct (decide (k < j)%nat) as [Hlt|Hge].
  - by rewrite drop_insert_lt by lia.
  - rewrite drop_insert_ge by lia.
    rewrite (descendantRun_insert_stop _ _ _ t); [done | | lia | simpl; lia].
    rewrite lookup_drop. rewrite <- Hk. f_equal. lia.
Qed.

(** ** The sort *)

Section ArraySortFacts.
Context {A : Type} (comparefn : A → A → Z).

Lemma insertBack_Permutation x acc : insertBack comparefn x acc ≡ₚ x :: acc.
Proof.
  induction acc as [|y acc IH]; simpl; [done|].
  destruct (comparefn y x <=? 0); [done|].
  rewrite IH. apply perm_swap.
Qed.

Lemma fold_insertBack_Permutation l acc :
  fold_left (λ revPrefix item, insertBack comparefn item revPrefix) l acc
  ≡ₚ l ++ acc.
Proof.
  revert acc. induction l as [|x l IH]; intros acc; simpl; [done|].
  rewrite IH, insertBack_Permutation. by rewrite Permutation_middle.
Qed.

Lemma Array_sort_Permutation l : Array_sort comparefn l ≡ₚ l.
Proof.
  unfold Array_sort.
  rewrite <- Permutation_rev, fold_insertBack_Permutation. by rewrite app_nil_r.
Qed.

Lemma Sorted_snoc (R : A → A → Prop) l y x :
  Sorted R (l ++ [y]) → R y x → Sorted R ((l ++ [y]) ++ [x]).
Proof.
  induction l as [|a l IH]; simpl; intros Hs Hyx.
  - repeat constructor. done.
  - apply Sorted_inv in Hs as [Hs Hhd]. constructor; [by apply IH|].
    destruct l; simpl in *; inversion Hhd; by constructor.
Qed.

Lemma Sorted_rev (R : A → A → Prop) l :
  Sorted (λ a b, R b a) l → Sorted R (rev l).
Proof.
  induction 1 as [|x l _ IH Hhd]; simpl; [constructor|].
  destruct Hhd as [|y l Hyx]; simpl in *; [repeat constructor|].
  by apply Sorted_snoc.
Qed.

Lemma Sorted_middle (R : A → A → Prop) l1 a b l2 :
  Sorted R (l1 ++ a :: b :: l2) → R a b.
Proof.
  induction l1 as [|c l1 IH]; simpl; intros [Hs Hhd]%Sorted_inv.
  - by inversion Hhd.
  - by apply IH.
Qed.

(** A locally sorted array is returned as it is, whatever the comparator. *)
Lemma fold_insertBack_sorted l acc :
  Sorted (inOrder comparefn) (rev acc ++ l) →
  fold_left (λ revPrefix item, insertBack comparefn item revPrefix) l acc
  = rev l ++ acc.
Proof.
  revert acc. induction l as [|x l IH]; intros acc Hs; simpl; [done|].
  assert (insertBack comparefn x acc = x :: acc) as ->.
  { destruct acc as [|y acc]; simpl; [done|].
    simpl in Hs. rewrite <- app_assoc in Hs. simpl in Hs.
    apply Sorted_middle in Hs. unfold inOrder in Hs.
    by rewrite (proj2 (Z.leb_le _ _)). }
  rewrite IH; simpl; by rewrite <- app_assoc.
Qed.

Lemma Array_sort_sorted_id l :
  Sorted (inOrder comparefn) l → Array_sort comparefn l = l.
Proof.
  intros Hs. unfold Array_sort.
  rewrite fold_insertBack_sorted by done.
  by rewrite app_nil_r, rev_involutive.
Qed.

(** The comparator of the component never ranks both [a] after [b] and [b]
    after [a]; that is all the next lemmas need. *)
Hypothesis comparefn_asym : ∀ a b, 0 < comparefn a b → comparefn b a ≤ 0.

Lemma insertBack_Sorted x acc :
  Sorted (λ a b, inOrder comparefn b a) acc →
  Sorted (λ a b, inOrder comparefn b a) (insertBack comparefn x acc).
Proof.
  induction 1 as [|y acc Hs IH Hhd]; simpl; [repeat constructor|].
  destruct (comparefn y x <=? 0) eqn:Hyx.
  - apply Z.leb_le in Hyx. repeat constructor; done.
  - apply Z.leb_gt in Hyx. constructor; [done|].
    destruct Hhd as [|z acc Hzy]; simpl.
    + constructor. by apply comparefn_asym.
    + destruct (comparefn z x <=? 0); constructor;
        [by apply comparefn_asym | done].
Qed.

Lemma fold_insertBack_Sorted l acc :
  Sorted (λ a b, inOrder comparefn b a) acc →
  Sorted (λ a b, inOrder comparefn b a)
    (fold_left (λ revPrefix item, insertBack comparefn item revPrefix) l acc).
Proof.
  revert acc. induction l as [|x l IH]; intros acc Hs; simpl; [done|].
  by apply IH, insertBack_Sorted.
Qed.

Lemma Array_sort_Sorted l : Sorted (inOrder comparefn) (Array_sort comparefn l).
Proof. apply Sorted_rev, fold_insertBack_Sorted. constructor. Qed.

End ArraySortFacts.

Lemma compareTodos_asym a b : 0 < compareTodos a b → compareTodos b a ≤ 0.
Proof.
  unfold compareTodos.
  destruct (depth a =? depth b) eqn:Hab.
  - apply Z.eqb_eq in Hab. rewrite <- Hab, Z.eqb_refl. simpl. lia.
  - rewrite Z.eqb_sym, Hab. simpl. lia.
Qed.

(** ** The displayed order on consistent stores *)

Lemma Sorted_all_pairs {A} (R : A → A → Prop) l :
  (∀ a b, a ∈ l → b ∈ l → R a b) → Sorted R l.
Proof.
  induction l as [|x l IH]; intros HR; constructor.
  - apply IH. intros a b Ha Hb. apply HR; by constructor.
  - destruct l as [|y l]; constructor. apply HR; repeat constructor.
Qed.

Lemma Sorted_impl_elem_of {A} (R R' : A → A → Prop) l :
  (∀ a b, a ∈ l → b ∈ l → R a b → R' a b) → Sorted R l → Sorted R' l.
Proof.
  intros HR Hs. induction Hs as [|x l Hs IH Hhd]; constructor.
  - apply IH. intros a b Ha Hb. apply HR; by constructor.
  - destruct Hhd as [|y l Hxy]; constructor. apply HR; [| |done];
      repeat constructor.
Qed.

Lemma Sorted_rank_lookup (l : list Todo) i j a b :
  Sorted (λ a b, priorityOrder (priority a) ≤ priorityOrder (priority b)) l →
  (i < j)%nat → l !! i = Some a → l !! j = Some b →
  priorityOrder (priority a) ≤ priorityOrder (priority b).
Proof.
  intros Hs%Sorted_StronglySorted; [|intros x y z; simpl; lia].
  revert i j. induction Hs as [|x l _ IH Hall]; intros i j Hij Hi Hj; [done|].
  destruct j as [|j]; [lia|]. simpl in Hj. destruct i as [|i]; simpl in Hi.
  - injection Hi as ->. by eapply (Forall_lookup_1 _ l j b) in Hall.
  - apply (IH i j); [lia | done | done].
Qed.

Lemma Permutation_all_equal {A} (l1 l2 : list A) :
  l1 ≡ₚ l2 → (∀ x y, x ∈ l1 → y ∈ l1 → x = y) → l1 = l2.
Proof.
  revert l2. induction l1 as [|x l1 IH]; intros l2 Hp Heq.
  - by apply Permutation_nil in Hp.
  - destruct l2 as [|y l2]; [by apply Permutation_sym, Permutation_nil in Hp|].
    assert (y = x) as ->.
    { apply Heq; [|by constructor]. rewrite Hp. by constructor. }
    f_equal. apply IH; [by apply Permutation_cons_inv in Hp|].
    intros a b Ha Hb. apply Heq; by constructor.
Qed.

Lemma uniformDepth_spec l a b :
  uniformDepth l = true → a ∈ l → b ∈ l → depth a = depth b.
Proof.
  unfold uniformDepth. rewrite forallb_forall. intros H Ha Hb.
  apply list_elem_of_In in Ha, Hb.
  specialize (H a Ha). rewrite forallb_forall in H.
  by apply Z.eqb_eq, H.
Qed.

Lemma flatPriorities_spec l a b :
  flatPriorities l = true → a ∈ l → b ∈ l →
  depth a = depth b → priority a = priority b.
Proof.
  unfold flatPriorities. rewrite forallb_forall. intros H Ha Hb Hd.
  apply list_elem_of_In in Ha, Hb.
  specialize (H a Ha). rewrite forallb_forall in H. specialize (H b Hb).
  rewrite Hd, Z.eqb_refl in H. simpl in H. by apply bool_decide_eq_true in H.
Qed.

(** Consistency depends on the depths and priorities in the store only. *)
Lemma uniformDepth_true l :
  uniformDepth l = true ↔ ∀ a b, a ∈ l → b ∈ l → depth a = depth b.
Proof.
  split; [intros H a b; by apply uniformDepth_spec|].
  intros H. unfold uniformDepth. apply forallb_forall. intros a Ha.
  apply forallb_forall. intros b Hb. apply Z.eqb_eq.
  apply H; by apply list_elem_of_In.
Qed.

Lemma flatPriorities_true l :
  flatPriorities l = true
  ↔ ∀ a b, a ∈ l → b ∈ l → depth a = depth b → priority a = priority b.
Proof.
  split; [intros H a b; by apply flatPriorities_spec|].
  intros H. unfold flatPriorities. apply forallb_forall. intros a Ha.
  apply forallb_forall. intros b Hb.
  destruct (depth a =? depth b) eqn:Hd; simpl; [|done].
  apply bool_decide_eq_true, H; [by apply list_elem_of_In.. |by apply Z.eqb_eq].
Qed.

Lemma consistentStore_elements l r :
  (∀ b, b ∈ r → ∃ a, a ∈ l ∧ depth a = depth b ∧ priority a = priority b) →
  consistentStore l = true → consistentStore r = true.
Proof.
  intros Hsub. unfold consistentStore. rewrite !orb_true_iff.
  rewrite !uniformDepth_true, !flatPriorities_true.
  intros [Hu|Hf]; [left | right].
  - intros b1 b2 (a1 & Ha1 & Hd1 & _)%Hsub (a2 & Ha2 & Hd2 & _)%Hsub.
    rewrite <- Hd1, <- Hd2. by apply Hu.
  - intros b1 b2 (a1 & Ha1 & Hd1 & Hp1)%Hsub (a2 & Ha2 & Hd2 & Hp2)%Hsub Hd.
    rewrite <- Hp1, <- Hp2. apply Hf; [done | done | congruence].
Qed.

Lemma consistentStore_Permutation l r :
  r ≡ₚ l → consistentStore l = true → consistentStore r = true.
Proof.
  intros Hp. apply consistentStore_elements.
  intros b Hb. exists b. by rewrite <- Hp.
Qed.

Lemma consistentStore_sameFrame l r :
  Forall2 sameFrame l r → consistentStore l = true → consistentStore r = true.
Proof.
  intros HF. apply consistentStore_elements.
  intros b [i Hi]%list_elem_of_lookup_1.
  destruct (Forall2_lookup_r _ _ _ _ _ HF Hi) as (a & Ha & _ & _ & Hd & Hp).
  exists a. split_and!; [by eapply list_elem_of_lookup_2 | done | done].
Qed.

(** Within a group the insertion sort moves nothing past anything. *)
Lemma filter_rev {A} (P : A → Prop) `{!∀ x, Decision (P x)} (l : list A) :
  filter P (rev l) = rev (filter P l).
Proof.
  induction l as [|x l IH]; simpl; [done|].
  rewrite filter_app, IH, !filter_cons, filter_nil.
  destruct (decide (P x)); simpl; [done | by rewrite app_nil_r].
Qed.

Lemma insertBack_filter_group d p x acc :
  filter (sameGroup d p) (insertBack compareTodos x acc)
  = filter (sameGroup d p) (x :: acc).
Proof.
  induction acc as [|y acc IH]; simpl; [done|].
  destruct (compareTodos y x <=? 0) eqn:Hyx; [done|].
  apply Z.leb_gt in Hyx. unfold compareTodos in Hyx.
  destruct (depth y =? depth x) eqn:Hd; simpl in Hyx; [|lia].
  apply Z.eqb_eq in Hd.
  assert (priority y ≠ priority x) as Hne by (intros Heq; rewrite Heq in Hyx; lia).
  rewrite (filter_cons _ y), IH, !(filter_cons _ x), (filter_cons _ y).
  destruct (decide (sameGroup d p y)) as [[? ?]|Hy],
           (decide (sameGroup d p x)) as [[? ?]|Hx]; try done.
  congruence.
Qed.

Lemma fold_insertBack_filter_group d p l acc :
  filter (sameGroup d p)
    (fold_left (λ revPrefix item, insertBack compareTodos item revPrefix) l acc)
  = rev (filter (sameGroup d p) l) ++ filter (sameGroup d p) acc.
Proof.
  revert acc. induction l as [|x l IH]; intros acc; simpl; [done|].
  rewrite IH, insertBack_filter_group, !filter_cons.
  destruct (decide (sameGroup d p x)); simpl; [|done].
  by rewrite <- app_assoc.
Qed.

(** On a consistent store the displayed order does not depend on the sort
    algorithm.  There the comparator is a consistent comparison, and every
    sort that meets ECMAScript returns the permutation whose neighbours are
    in comparator order and in which equal elements keep their order; in
    particular it returns an array that is in comparator order already as it
    is.  These three facts are all the lemmas of this section use. *)
Section AnySort.
Variable sort : list Todo → list Todo.
Hypothesis sort_Permutation : ∀ l, sort l ≡ₚ l.
Hypothesis sort_Sorted :
  ∀ l, consistentStore l = true → Sorted (inOrder compareTodos) (sort l).
Hypothesis sort_sorted_id :
  ∀ l, consistentStore l = true →
       Sorted (inOrder compareTodos) l → sort l = l.

Lemma sort_uniform l :
  uniformDepth l = true →
  ascendingWithinDepth (sort l) ∧ crossDepthOrderKept l (sort l).
Proof.
  intros Hu. pose proof (sort_Permutation l) as Hperm.
  assert (consistentStore l = true) as Hc
    by (unfold consistentStore; by rewrite Hu).
  split.
  - intros i j a b Hij Hi Hj _.
    apply (Sorted_rank_lookup (sort l) i j); try done.
    eapply Sorted_impl_elem_of; [|by apply sort_Sorted].
    intros x y Hx Hy. rewrite Hperm in Hx, Hy.
    unfold inOrder, compareTodos.
    rewrite (uniformDepth_spec l x y Hu Hx Hy), Z.eqb_refl. simpl. lia.
  - intros a b Hab. apply Permutation_all_equal.
    + by rewrite Hperm.
    + intros x y [Hpx Hx]%list_elem_of_filter [Hpy Hy]%list_elem_of_filter.
      rewrite Hperm in Hx, Hy.
      pose proof (uniformDepth_spec l x y Hu Hx Hy).
      destruct Hpx, Hpy; congruence.
Qed.

Lemma sort_flat l : flatPriorities l = true → sort l = l.
Proof.
  intros Hf. apply sort_sorted_id.
  { unfold consistentStore. rewrite Hf. apply orb_true_r. }
  apply Sorted_all_pairs.
  intros a b Ha Hb. unfold inOrder, compareTodos.
  destruct (depth a =? depth b) eqn:Hd; simpl; [|done].
  apply Z.eqb_eq in Hd.
  rewrite (flatPriorities_spec l a b Hf Ha Hb Hd). lia.
Qed.

Lemma sort_consistent l :
  consistentStore l = true →
  ascendingWithinDepth (sort l) ∧ crossDepthOrderKept l (sort l).
Proof.
  unfold consistentStore. intros [Hu|Hf]%orb_true_iff.
  - by apply sort_uniform.
  - rewrite (sort_flat _ Hf). split.
    + intros i j a b _ Hi Hj Hd.
      rewrite (flatPriorities_spec l a b Hf); [lia | | | done];
        by eapply list_elem_of_lookup_2.
    + by intros a b _.
Qed.

(** Sorting a consistent store twice gives what sorting it once gives: the
    output of the first sort is a consistent store again, and it is in
    comparator order. *)
Lemma sort_idempotent_consistent l :
  consistentStore l = true →
  consistentStore (sort l) = true ∧ sort (sort l) = sort l.
Proof.
  intros Hc.
  assert (consistentStore (sort l) = true) as Hc'
    by (by apply (consistentStore_Permutation l)).
  split; [done|]. apply sort_sorted_id; [done | by apply sort_Sorted].
Qed.

End AnySort.

(** ** The merge sort *)

Section MergeSortFacts.
Context {A : Type} (comparefn : A → A → Z).

Lemma merge_nil_l ys : merge comparefn [] ys = ys.
Proof. by destruct ys. Qed.

Lemma merge_nil_r xs : merge comparefn xs [] = xs.
Proof. by destruct xs. Qed.

Lemma merge_cons a xs b ys :
  merge comparefn (a :: xs) (b :: ys)
  = if comparefn a b <=? 0 then a :: merge comparefn xs (b :: ys)
    else b :: merge comparefn (a :: xs) ys.
Proof. done. Qed.

Lemma merge_Permutation xs ys : merge comparefn xs ys ≡ₚ xs ++ ys.
Proof.
  revert ys. induction xs as [|a xs IHx]; intros ys.
  - by rewrite merge_nil_l.
  - induction ys as [|b ys IHy].
    + by rewrite merge_nil_r, app_nil_r.
    + rewrite merge_cons. destruct (comparefn a b <=? 0).
      * simpl. by rewrite IHx.
      * rewrite IHy. apply Permutation_middle.
Qed.

(** Runs are merged two by two. *)
Lemma mergePairs_ind (P : list (list A) → Prop) :
  P [] → (∀ r, P [r]) → (∀ r1 r2 rest, P rest → P (r1 :: r2 :: rest)) →
  ∀ runs, P runs.
Proof.
  intros H0 H1 H2 runs.
  assert (P runs ∧ ∀ r, P (r :: runs)) as [? _]; [|done].
  induction runs as [|r runs [IH1 IH2]]; [by split|].
  split; [apply IH2|]. intros r'. by apply H2.
Qed.

Lemma mergePairs_length runs :
  (2 * length (mergePairs comparefn runs) ≤ S (length runs))%nat.
Proof.
  induction runs as [|r|r1 r2 rest IH] using mergePairs_ind; simpl; lia.
Qed.

Lemma mergePasses_length n runs :
  (length runs ≤ S n)%nat → (length (mergePasses comparefn n runs) ≤ 1)%nat.
Proof.
  revert runs. induction n as [|n IH]; intros runs Hlen; simpl; [done|].
  apply IH. pose proof (mergePairs_length runs). lia.
Qed.

Lemma mergePairs_Permutation runs :
  concat (mergePairs comparefn runs) ≡ₚ concat runs.
Proof.
  induction runs as [|r|r1 r2 rest IH] using mergePairs_ind; simpl; [done..|].
  by rewrite merge_Permutation, IH, app_assoc.
Qed.

Lemma mergePasses_Permutation n runs :
  concat (mergePasses comparefn n runs) ≡ₚ concat runs.
Proof.
  revert runs. induction n as [|n IH]; intros runs; simpl; [done|].
  by rewrite IH, mergePairs_Permutation.
Qed.

Lemma concat_singletons (l : list A) : concat ((λ x, [x]) <$> l) = l.
Proof. induction l as [|x l IH]; csimpl; [done | by rewrite IH]. Qed.

Lemma mergeSort_Permutation l : mergeSort comparefn l ≡ₚ l.
Proof.
  unfold mergeSort. by rewrite mergePasses_Permutation, concat_singletons.
Qed.

(** Where the comparator ranks nothing after anything, nothing moves. *)
Lemma merge_in_order xs ys :
  (∀ a b, a ∈ xs → b ∈ ys → comparefn a b ≤ 0) →
  merge comparefn xs ys = xs ++ ys.
Proof.
  revert ys. induction xs as [|a xs IH]; intros ys H; [apply merge_nil_l|].
  destruct ys as [|b ys]; [by rewrite merge_nil_r, app_nil_r|].
  rewrite merge_cons, (proj2 (Z.leb_le _ _)) by (apply H; by left).
  simpl. f_equal. apply IH. intros a' b' Ha Hb. apply H; [by right | done].
Qed.

Lemma mergePairs_in_order runs :
  (∀ a b, a ∈ concat runs → b ∈ concat runs → comparefn a b ≤ 0) →
  concat (mergePairs comparefn runs) = concat runs.
Proof.
  induction runs as [|r|r1 r2 rest IH] using mergePairs_ind; intros H; simpl;
    [done..|].
  simpl in H. rewrite merge_in_order, IH, app_assoc; [done | |].
  - intros a b Ha Hb. apply H; rewrite !elem_of_app; auto.
  - intros a b Ha Hb. apply H; rewrite !elem_of_app; auto.
Qed.

Lemma mergePasses_in_order n runs :
  (∀ a b, a ∈ concat runs → b ∈ concat runs → comparefn a b ≤ 0) →
  concat (mergePasses comparefn n runs) = concat runs.
Proof.
  revert runs. induction n as [|n IH]; intros runs H; simpl; [done|].
  rewrite IH; [by apply mergePairs_in_order|].
  intros a b. rewrite mergePairs_in_order by done. apply H.
Qed.

Lemma mergeSort_in_order l :
  (∀ a b, a ∈ l → b ∈ l → comparefn a b ≤ 0) → mergeSort comparefn l = l.
Proof.
  intros H. unfold mergeSort.
  rewrite mergePasses_in_order; rewrite concat_singletons; done.
Qed.

End MergeSortFacts.

(** On items of one depth the comparator is the difference of the ranks. *)
Lemma compareTodos_le d a b :
  depth a = d → depth b = d → compareTodos a b ≤ 0 → rankLe a b.
Proof.
  intros Ha Hb. unfold compareTodos, rankLe.
  rewrite Ha, Hb, Z.eqb_refl. simpl. lia.
Qed.

Lemma compareTodos_gt a b :
  0 < compareTodos a b →
  priorityOrder (priority b) < priorityOrder (priority a).
Proof.
  unfold compareTodos. destruct (depth a =? depth b); simpl; lia.
Qed.

Lemma rankLe_trans a b c : rankLe a b → rankLe b c → rankLe a c.
Proof. unfold rankLe. lia. Qed.

Lemma filter_group_above d p x l :
  Forall (rankLe x) l →
  priorityOrder p < priorityOrder (priority x) →
  filter (sameGroup d p) l = [].
Proof.
  intros Hall Hp. induction Hall as [|y l Hy _ IH]; [done|].
  rewrite filter_cons, decide_False; [done|].
  intros [_ Hpy]. unfold rankLe in Hy. rewrite Hpy in Hy. lia.
Qed.

(** Merging keeps the items of a group in their order when the left run is
    in rank order. *)
Lemma merge_filter_group d p xs ys :
  StronglySorted rankLe xs →
  filter (sameGroup d p) (merge compareTodos xs ys)
  = filter (sameGroup d p) xs ++ filter (sameGroup d p) ys.
Proof.
  revert ys. induction xs as [|a xs IHx]; intros ys Hs.
  - by rewrite merge_nil_l.
  - induction ys as [|b ys IHy].
    + by rewrite merge_nil_r, filter_nil, app_nil_r.
    + rewrite merge_cons. destruct (compareTodos a b <=? 0) eqn:Hab.
      * apply StronglySorted_inv in Hs as [Hs _].
        rewrite !(filter_cons _ a), IHx by done. by destruct (decide _).
      * apply Z.leb_gt, compareTodos_gt in Hab.
        rewrite (filter_cons _ b), IHy, (filter_cons _ b).
        destruct (decide (sameGroup d p b)) as [[_ Hpb]|]; [|done].
        assert (filter (sameGroup d p) (a :: xs) = []) as ->; [|done].
        apply StronglySorted_inv in Hs as [_ Hall].
        rewrite filter_cons, decide_False.
        -- apply (filter_group_above d p a); [done | by rewrite <- Hpb].
        -- intros [_ Hpa]. rewrite Hpa, <- Hpb in Hab. lia.
Qed.

Lemma merge_StronglySorted d xs ys :
  Forall (λ x, depth x = d) xs → Forall (λ x, depth x = d) ys →
  StronglySorted rankLe xs → StronglySorted rankLe ys →
  StronglySorted rankLe (merge compareTodos xs ys).
Proof.
  revert ys. induction xs as [|a xs IHx]; intros ys Hdx Hdy Hsx Hsy.
  - by rewrite merge_nil_l.
  - induction ys as [|b ys IHy].
    + by rewrite merge_nil_r.
    + apply Forall_cons in Hdx as [Hda Hdx], Hdy as [Hdb Hdy].
      pose proof (StronglySorted_inv Hsx) as [Hsx' Hax].
      pose proof (StronglySorted_inv Hsy) as [Hsy' Hby].
      rewrite merge_cons. destruct (compareTodos a b <=? 0) eqn:Hab.
      * apply Z.leb_le, (compareTodos_le d) in Hab; [|done..].
        constructor.
        -- apply IHx; [done | by constructor | done | done].
        -- rewrite merge_Permutation. apply Forall_app. split; [done|].
           constructor; [done|].
           eapply Forall_impl; [exact Hby|]. intros c. by apply rankLe_trans.
      * apply Z.leb_gt, compareTodos_gt in Hab.
        assert (rankLe b a) as Hba by (unfold rankLe; lia).
        constructor.
        -- by apply IHy.
        -- rewrite merge_Permutation. apply Forall_app. split; [|done].
           constructor; [done|].
           eapply Forall_impl; [exact Hax|]. intros c. by apply rankLe_trans.
Qed.

Lemma mergePairs_uniform d runs :
  Forall (Forall (λ x, depth x = d)) runs →
  Forall (StronglySorted rankLe) runs →
  Forall (Forall (λ x, depth x = d)) (mergePairs compareTodos runs)
  ∧ Forall (StronglySorted rankLe) (mergePairs compareTodos runs)
  ∧ ∀ p, filter (sameGroup d p) (concat (mergePairs compareTodos runs))
         = filter (sameGroup d p) (concat runs).
Proof.
  induction runs as [|r|r1 r2 rest IH] using mergePairs_ind; simpl;
    [done..|].
  intros [Hd1 Hd]%Forall_cons [Hs1 Hs]%Forall_cons.
  apply Forall_cons in Hd as [Hd2 Hd], Hs as [Hs2 Hs].
  destruct (IH Hd Hs) as (IHd & IHs & IHf).
  split_and!.
  - constructor; [|done]. rewrite merge_Permutation. by apply Forall_app.
  - constructor; [|done]. by apply (merge_StronglySorted d).
  - intros p. rewrite !filter_app, merge_filter_group, IHf by done.
    by rewrite app_assoc.
Qed.

Lemma mergePasses_uniform d n runs :
  Forall (Forall (λ x, depth x = d)) runs →
  Forall (StronglySorted rankLe) runs →
  Forall (StronglySorted rankLe) (mergePasses compareTodos n runs)
  ∧ ∀ p, filter (sameGroup d p) (concat (mergePasses compareTodos n runs))
         = filter (sameGroup d p) (concat runs).
Proof.
  revert runs. induction n as [|n IH]; intros runs Hd Hs; simpl; [done|].
  destruct (mergePairs_uniform d runs Hd Hs) as (Hd' & Hs' & Hf').
  destruct (IH _ Hd' Hs') as [Hs'' Hf'']. split; [done|].
  intros p. by rewrite Hf'', Hf'.
Qed.

(** On a store of one depth the merge sort returns the items in rank order
    and keeps every group in its order. *)
Lemma mergeSort_uniform d l :
  Forall (λ x, depth x = d) l →
  StronglySorted rankLe (mergeSort compareTodos l)
  ∧ ∀ p, filter (sameGroup d p) (mergeSort compareTodos l)
         = filter (sameGroup d p) l.
Proof.
  intros Hd. unfold mergeSort.
  destruct (mergePasses_uniform d (length l) ((λ x, [x]) <$> l))
    as [Hs Hf].
  { apply Forall_fmap. eapply Forall_impl; [exact Hd|].
    intros x Hx. by apply Forall_singleton. }
  { apply Forall_fmap, Forall_true. intros x. repeat constructor. }
  split; [|intros p; by rewrite Hf, concat_singletons].
  pose proof (mergePasses_length compareTodos (length l) ((λ x, [x]) <$> l))
    as Hlen.
  rewrite length_fmap in Hlen. specialize (Hlen ltac:(lia)).
  destruct (mergePasses compareTodos (length l) ((λ x, [x]) <$> l))
    as [|r [|r' rest]]; simpl in *; [constructor | | lia].
  rewrite app_nil_r. by apply Forall_inv in Hs.
Qed.

(** So does the insertion sort. *)
Lemma Array_sort_uniform d l :
  Forall (λ x, depth x = d) l →
  StronglySorted rankLe (Array_sort compareTodos l)
  ∧ ∀ p, filter (sameGroup d p) (Array_sort compareTodos l)
         = filter (sameGroup d p) l.
Proof.
  intros Hd. split.
  - apply Sorted_StronglySorted; [intros a b c; apply rankLe_trans|].
    eapply Sorted_impl_elem_of;
      [|apply Array_sort_Sorted, compareTodos_asym].
    intros a b Ha Hb. rewrite Array_sort_Permutation in Ha, Hb.
    rewrite Forall_forall in Hd. apply (compareTodos_le d); by apply Hd.
  - intros p. unfold Array_sort.
    rewrite filter_rev, fold_insertBack_filter_group, filter_nil, app_nil_r.
    apply rev_involutive.
Qed.

(** A store of one depth in rank order is the sequence of its four groups. *)
Lemma StronglySorted_groups d l :
  Forall (λ x, depth x = d) l →
  StronglySorted rankLe l →
  filter (sameGroup d emergency) l ++ filter (sameGroup d urgent) l
  ++ filter (sameGroup d normal) l ++ filter (sameGroup d low) l = l.
Proof.
  intros Hd Hs. induction Hs as [|x l Hs IH Hall]; [done|].
  apply Forall_cons in Hd as [Hx Hd]. specialize (IH Hd).
  transitivity (x :: filter (sameGroup d emergency) l
                  ++ filter (sameGroup d urgent) l
                  ++ filter (sameGroup d normal) l
                  ++ filter (sameGroup d low) l); [|by rewrite IH].
  rewrite !(filter_cons _ x).
  destruct (decide (sameGroup d emergency x)) as [[_ He]|He],
           (decide (sameGroup d urgent x)) as [[_ Hu]|Hu],
           (decide (sameGroup d normal x)) as [[_ Hn]|Hn],
           (decide (sameGroup d low x)) as [[_ Hl]|Hl]; try congruence.
  - done.
  - by rewrite (filter_group_above d emergency x l) by (by rewrite ?Hu).
  - rewrite (filter_group_above d emergency x l) by (by rewrite ?Hn).
    by rewrite (filter_group_above d urgent x l) by (by rewrite ?Hn).
  - rewrite (filter_group_above d emergency x l) by (by rewrite ?Hl).
    rewrite (filter_group_above d urgent x l) by (by rewrite ?Hl).
    by rewrite (filter_group_above d normal x l) by (by rewrite ?Hl).
  - exfalso.
    destruct (priority x) eqn:Hp;
      [apply He | apply Hu | apply Hn | apply Hl]; by split.
Qed.

Lemma uniformDepth_Forall l :
  uniformDepth l = true → ∃ d, Forall (λ x, depth x = d) l.
Proof.
  intros Hu. destruct l as [|t l]; [by exists 0|].
  exists (depth t). apply Forall_forall. intros x Hx.
  apply (uniformDepth_spec _ _ _ Hu); [done | by left].
Qed.

(** On a consistent store the two sorts return the same array. *)
Lemma mergeSort_consistent l :
  consistentStore l = true → mergeSort compareTodos l = sortedTodos l.
Proof.
  unfold consistentStore. intros [Hu|Hf]%orb_true_iff.
  - destruct (uniformDepth_Forall l Hu) as [d Hd].
    destruct (mergeSort_uniform d l Hd) as [Hs1 Hf1].
    destruct (Array_sort_uniform d l Hd) as [Hs2 Hf2].
    assert (∀ out, out ≡ₚ l → Forall (λ x, depth x = d) out) as Hdout.
    { intros out Hp. by rewrite Hp. }
    unfold sortedTodos.
    rewrite <- (StronglySorted_groups d (mergeSort compareTodos l)),
      <- (StronglySorted_groups d (Array_sort compareTodos l));
      [| apply Hdout, Array_sort_Permutation | done
       | apply Hdout, mergeSort_Permutation | done].
    by rewrite !Hf1, !Hf2.
  - assert (∀ a b, a ∈ l → b ∈ l → compareTodos a b ≤ 0) as Hle.
    { intros a b Ha Hb. unfold compareTodos.
      destruct (depth a =? depth b) eqn:Hd; simpl; [|done].
      apply Z.eqb_eq in Hd.
      rewrite (flatPriorities_spec l a b Hf Ha Hb Hd). lia. }
    rewrite mergeSort_in_order by done. symmetry.
    apply (Array_sort_sorted_id compareTodos), Sorted_all_pairs. exact Hle.
Qed.

(** Both sorts meet the requirements. *)
Lemma sortedTodos_conforming : conformingSort sortedTodos.
Proof.
  split_and!.
  - apply Array_sort_Permutation.
  - intros l _. apply Array_sort_Sorted, compareTodos_asym.
  - intros l _. apply Array_sort_sorted_id.
Qed.

Lemma mergeSort_conforming : conformingSort (mergeSort compareTodos).
Proof.
  split_and!.
  - apply mergeSort_Permutation.
  - intros l Hc. rewrite (mergeSort_consistent l Hc).
    apply Array_sort_Sorted, compareTodos_asym.
  - intros l Hc Hs. rewrite (mergeSort_consistent l Hc).
    by apply Array_sort_sorted_id.
Qed.

Lemma conformingSort_idempotent sort l :
  conformingSort sort →
  consistentStore l = true →
  consistentStore (sort l) = true ∧ sort (sort l) = sort l.
Proof.
  intros (Hperm & Hsorted & Hid). by apply sort_idempotent_consistent.
Qed.

(** ** The handlers *)

Section HandlerFacts.
Variable trim : string → string.

Lemma addTodo_commit now st :
  trim (inputValue st) ≠ "" →
  addTodo trim now st
  = {| todos := todos st ++ [ {| id := pretty now;
                                 text := trim (inputValue st);
                                 completed := false;
                                 depth := inputDepth st;
                                 priority := inputPriority st |} ];
       inputValue := "";
       inputDepth := inputDepth st;
       inputPriority := normal |}.
Proof. intros Hne. unfold addTodo. by rewrite bool_decide_eq_false_2. Qed.

Lemma handleKeyDown_Enter now st e :
  key e = "Enter" →
  handleKeyDown trim now st e
  = if negb (bool_decide (trim (inputValue st) = "")) && negb (isComposing e)
    then addTodo trim now st else st.
Proof. intros Hkey. unfold handleKeyDown. rewrite Hkey. done. Qed.

(** A key press appends at most one item, whose id is the clock reading. *)
Lemma handleKeyDown_todos now st e :
  todos (handleKeyDown trim now st e) = todos st
  ∨ ∃ newTodo, todos (handleKeyDown trim now st e) = todos st ++ [newTodo]
               ∧ id newTodo = pretty now.
Proof.
  unfold handleKeyDown, addTodo.
  repeat case_match; simpl; eauto.
Qed.

Lemma sameFrame_ids (l r : list Todo) :
  Forall2 sameFrame l r → id <$> l = id <$> r.
Proof.
  induction 1 as [|x y l r (Hid & _) _ IH]; csimpl; [done|]. by rewrite Hid, IH.
Qed.

Lemma toggleTodo_ids l id' r :
  toggleTodo l id' = Normal r → id <$> r = id <$> l.
Proof.
  unfold toggleTodo. intros H.
  destruct (findIndex _ l) as [k|]; [|done].
  destruct (l !! k) as [t|] eqn:Hk; [|done].
  injection H as <-. symmetry. apply sameFrame_ids.
  eapply sameFrame_list_trans;
    [by apply toggleDown_sameFrame | apply updateParentCompletion_sameFrame].
Qed.

(** Every handler keeps the ids of the store in place and only ever adds the
    decimal numeral of the clock reading at its end. *)
Lemma step_ids st ev :
  id <$> todos (step trim st ev) = id <$> todos st
  ∨ ∃ e now, ev = KeyDown e now
             ∧ id <$> todos (step trim st ev) = (id <$> todos st) ++ [pretty now].
Proof.
  destruct ev as [e now|value|id']; simpl.
  - destruct (handleKeyDown_todos now st e) as [->|(newTodo & -> & Hid)];
      [by left | right].
    exists e, now. split; [done|]. rewrite fmap_app. simpl. by rewrite Hid.
  - by left.
  - left. destruct (toggleTodo (todos st) id') as [r|] eqn:Hr; [|done].
    simpl. by eapply toggleTodo_ids.
Qed.

End HandlerFacts.

(** * The claims *)

Lemma forallb_isCompleted l :
  forallb completed l = true ↔ Forall isCompleted l.
Proof.
  rewrite forallb_forall, Forall_forall.
  split; intros H x Hx; apply H; by apply list_elem_of_In.
Qed.

Lemma isSibling_spec l k j :
  isSibling l k j = true →
  j ≠ k ∧ ∃ t s, l !! k = Some t ∧ l !! j = Some s ∧ depth s = depth t.
Proof.
  unfold isSibling.
  destruct (l !! k) as [t|], (l !! j) as [s|]; try done.
  intros [[Hne%negb_true_iff%Nat.eqb_neq Hd%Z.eqb_eq]%andb_true_iff _]%andb_true_iff.
  split; [done|]. by exists t, s.
Qed.

(** ** The worked examples of the specification *)

Example complete_root_of_tree :
  toggleTodo treeStore "1"
  = Normal [item "1" "A" 0 true normal; item "2" "B" 1 true urgent;
            item "3" "C" 2 true low; item "4" "D" 1 true emergency].
Proof. reflexivity. Qed.

Example uncomplete_grandchild :
  toggleTodo [item "1" "A" 0 true normal; item "2" "B" 1 true normal;
              item "3" "C" 2 true normal; item "4" "D" 2 true normal] "3"
  = Normal [item "1" "A" 0 false normal; item "2" "B" 1 false normal;
            item "3" "C" 2 false normal; item "4" "D" 2 true normal].
Proof. reflexivity. Qed.

Example complete_children_one_by_one :
  toggleTodo [item "1" "A" 0 false normal; item "2" "B" 1 false normal;
              item "3" "C" 1 false normal] "2"
  = Normal [item "1" "A" 0 false normal; item "2" "B" 1 true normal;
            item "3" "C" 1 false normal]
  ∧ toggleTodo [item "1" "A" 0 false normal; item "2" "B" 1 true normal;
                item "3" "C" 1 false normal] "3"
    = Normal [item "1" "A" 0 true normal; item "2" "B" 1 true normal;
              item "3" "C" 1 true normal].
Proof. split; reflexivity. Qed.

Example tab_three_times :
  inputDepth (run trimAscii initialState
                [KeyDown tabKey 1; KeyDown tabKey 2; KeyDown tabKey 3]) = 2.
Proof. reflexivity. Qed.

Example arrows_wrap_around :
  inputPriority (run trimAscii initialState
                   [KeyDown arrowUpKey 1; KeyDown arrowUpKey 2;
                    KeyDown arrowUpKey 3]) = low
  ∧ inputPriority (run trimAscii initialState
                     [KeyDown arrowDownKey 1; KeyDown arrowDownKey 2])
    = emergency.
Proof. split; reflexivity. Qed.

(** ** C1: completing an item completes its descendants *)

(** C1 as stated fails.  In [gapStore] the item B (depth 2) directly follows
    the root A, so it lies in A's run of descendants; toggling A completes A,
    yet B is still open in the result: the cascade only visits items exactly
    one level below an item it has completed. *)
Lemma C1_counterexample :
  todos (run trimAscii initialState gapTrace) = gapStore
  ∧ findIndex (λ todo, String.eqb (id todo) "1") gapStore = Some 0%nat
  ∧ gapStore !! 0%nat = Some (item "1" "A" 0 false normal)
  ∧ ∃ r, toggleTodo gapStore "1" = Normal r
         ∧ r !! 0%nat = Some (item "1" "A" 0 true normal)
         ∧ r !! 1%nat = Some (item "4" "B" 2 false normal)
         ∧ ¬ runCompleted gapStore 0 r.
Proof.
  split_and!; [done..|].
  eexists. split_and!; [by vm_compute | done | done |].
  intros H. destruct (H 1%nat) as (x & Hx & Hc); [simpl; lia|].
  vm_compute in Hx. by injection Hx as <-.
Qed.

(** C1, amended: for every store and every id of an item in it, if the item
    that [toggleTodo] flips (the first one with that id) becomes completed and
    no item of its run of descendants lies more than one level below the item
    before it, then [toggleTodo] returns and every item of that run is
    completed in the returned store. *)
Theorem C1_toggle_completes_descendants todos id' k t :
  findIndex (λ todo, String.eqb (id todo) id') todos = Some k →
  todos !! k = Some t →
  completed t = false →
  chained (depth t) (descendants todos k) = true →
  ∃ r, toggleTodo todos id' = Normal r ∧ runCompleted todos k r.
Proof.
  intros Hk Ht Hc Hch.
  exists (updateParentCompletion (toggleDown todos k t)). split.
  - unfold toggleTodo. by rewrite Hk, Ht.
  - intros j Hj. by apply toggle_completes_run.
Qed.

(** The hypotheses of C1 hold for the root of [treeStore]. *)
Lemma C1_witness :
  (findIndex (λ todo, String.eqb (id todo) "1") treeStore = Some 0%nat
   ∧ treeStore !! 0%nat = Some (item "1" "A" 0 false normal)
   ∧ completed (item "1" "A" 0 false normal) = false
   ∧ chained 0 (descendants treeStore 0) = true)
  ∧ ∃ r, toggleTodo treeStore "1" = Normal r ∧ runCompleted treeStore 0 r.
Proof.
  split; [by split_and!|].
  apply (C1_toggle_completes_descendants treeStore "1" 0
           (item "1" "A" 0 false normal)); reflexivity.
Defined.

(** ** C2: what the upward pass establishes *)



(** ** C3: un-completion does not cascade downward *)

(** C3 as stated fails in its last part.  In [familyStore] the items L and S
    are siblings, both completed, L has no descendants, and S has the open
    sub-item C.  Un-completing the leaf L makes the upward pass recompute S
    from C, and S comes out open. *)
Lemma C3_counterexample :
  todos (run trimAscii initialState familyTrace) = familyStore
  ∧ descendants familyStore 1 = []
  ∧ isSibling familyStore 1 2 = true
  ∧ familyStore !! 1%nat = Some (item "3" "L" 1 true normal)
  ∧ familyStore !! 2%nat = Some (item "4" "S" 1 true normal)
  ∧ ∃ r, toggleTodo familyStore "3" = Normal r
         ∧ r !! 1%nat = Some (item "3" "L" 1 false normal)
         ∧ r !! 2%nat = Some (item "4" "S" 1 false normal).
Proof. split_and!; [done..|]. eexists. split_and!; by vm_compute. Qed.

(** C3, amended: if the item that [toggleTodo] flips becomes open, the
    downward direction changes nothing but that item (the array handed to the
    upward pass is the input with the target replaced), and in the returned
    store every sibling that was completed together with all of its own
    descendants -- in particular every completed sibling without descendants --
    is unchanged, hence still completed. *)
Theorem C3_uncompletion_keeps_siblings todos id' k t :
  findIndex (λ todo, String.eqb (id todo) id') todos = Some k →
  todos !! k = Some t →
  completed t = true →
  ∃ r, toggleTodo todos id' = Normal r
       ∧ toggleDown todos k t = <[k := set_completed t false]> todos
       ∧ ∀ j s, isSibling todos k j = true →
                todos !! j = Some s →
                completed s = true →
                Forall isCompleted (descendants todos j) →
                r !! j = Some s.
Proof.
  intros Hk Ht Hc.
  exists (updateParentCompletion (toggleDown todos k t)). split_and!.
  - unfold toggleTodo. by rewrite Hk, Ht.
  - unfold toggleDown. by rewrite Hc.
  - intros j s Hsib Hj Hs Hrun.
    apply isSibling_spec in Hsib as (Hne & t' & s' & Ht' & Hs' & Hd).
    assert (t' = t) as -> by congruence.
    assert (s' = s) as -> by congruence.
    by apply toggle_keeps_sibling.
Qed.

(** C3 at the item S of [familyStore]. *)
Lemma C3_witness :
  (findIndex (λ todo, String.eqb (id todo) "4") familyStore = Some 2%nat
   ∧ familyStore !! 2%nat = Some (item "4" "S" 1 true normal)
   ∧ completed (item "4" "S" 1 true normal) = true)
  ∧ ∃ r, toggleTodo familyStore "4" = Normal r
         ∧ toggleDown familyStore 2 (item "4" "S" 1 true normal)
           = <[2%nat := set_completed (item "4" "S" 1 true normal) false]>
               familyStore
         ∧ ∀ j s, isSibling familyStore 2 j = true →
                  familyStore !! j = Some s →
                  completed s = true →
                  Forall isCompleted (descendants familyStore j) →
                  r !! j = Some s.
Proof.
  split; [by split_and!|].
  apply (C3_uncompletion_keeps_siblings familyStore "4" 2
           (item "4" "S" 1 true normal)); reflexivity.
Defined.

(** ** C4: the displayed order *)

Section FilterPairs.
Context {A : Type} (P : A → Prop) `{!∀ x, Decision (P x)}.

Lemma filter_nil_lookup l k x : filter P l = [] → l !! k = Some x → ¬ P x.
Proof.
  intros Hf Hk HP.
  assert (x ∈ filter P l) as Hin
    by (apply list_elem_of_filter; eauto using list_elem_of_lookup_2).
  rewrite Hf in Hin. by apply not_elem_of_nil in Hin.
Qed.

Lemma filter_one_lookup l b :
  filter P l = [b] →
  ∃ j, l !! j = Some b ∧ ∀ k x, l !! k = Some x → P x → k = j.
Proof.
  induction l as [|y l IH]; [done|]. rewrite filter_cons.
  destruct (decide (P y)) as [Hy|Hy].
  - intros [= -> Hf]. exists 0%nat. split; [done|].
    intros [|k] x Hk HP; [done|]. simpl in Hk.
    by destruct (filter_nil_lookup l k x).
  - intros (j & Hj & Huniq)%IH. exists (S j). split; [done|].
    intros [|k] x Hk HP; simpl in Hk; [by injection Hk as ->|].
    f_equal. by apply (Huniq k x).
Qed.

Lemma filter_pair_lookup l a b :
  filter P l = [a; b] →
  ∃ i j, (i < j)%nat ∧ l !! i = Some a ∧ l !! j = Some b
         ∧ ∀ k x, l !! k = Some x → P x → k = i ∨ k = j.
Proof.
  induction l as [|y l IH]; [done|]. rewrite filter_cons.
  destruct (decide (P y)) as [Hy|Hy].
  - intros [= -> (j & Hj & Huniq)%filter_one_lookup].
    exists 0%nat, (S j). split_and!; [lia | done | done |].
    intros [|k] x Hk HP; [by left | right]. f_equal. by apply (Huniq k x).
  - intros (i & j & Hij & Hi & Hj & Huniq)%IH.
    exists (S i), (S j). split_and!; [lia | done | done |].
    intros [|k] x Hk HP; simpl in Hk; [by injection Hk as ->|].
    destruct (Huniq k x Hk HP); [left | right]; by f_equal.
Qed.

End FilterPairs.

(** The two requirements of C4 contradict each other on [mixedStore]: A
    must stay before B, B before C, and C (emergency) must come before A
    (low).  No order of the items satisfies both, whatever the sort does. *)
Remark mixedStore_has_no_order out :
  ¬ (ascendingWithinDepth out ∧ crossDepthOrderKept mixedStore out).
Proof.
  intros [Hasc Hkept].
  pose proof (Hkept (item "2" "A" 0 false low) (item "4" "B" 1 false normal))
    as HAB.
  pose proof (Hkept (item "4" "B" 1 false normal)
                (item "8" "C" 0 false emergency)) as HBC.
  apply filter_pair_lookup in HAB as (i & j & Hij & Hi & Hj & _); [|done].
  apply filter_pair_lookup in HBC as (i' & j' & Hij' & Hi' & Hj' & Huniq);
    [|done].
  assert (j = i' ∨ j = j') as [Heq|Heq] by (apply (Huniq j _ Hj); by left);
    subst; [| rewrite Hj in Hj'; by injection Hj'].
  specialize (Hasc i j' _ _ ltac:(lia) Hi Hj' eq_refl).
  simpl in Hasc. lia.
Qed.

(** C4 as stated fails: on [mixedStore] the sort leaves the array as it is
    (no two neighbours are ranked in the wrong order by the comparator), so
    the root A of priority low precedes the root C of priority emergency. *)
Lemma C4_counterexample :
  todos (run trimAscii initialState mixedTrace) = mixedStore
  ∧ sortedTodos mixedStore = mixedStore
  ∧ ¬ (ascendingWithinDepth (sortedTodos mixedStore)
       ∧ crossDepthOrderKept mixedStore (sortedTodos mixedStore)).
Proof. split_and!; [done | done | apply mixedStore_has_no_order]. Qed.

(** C4, amended: for every store on which the comparator is consistent --
    all items share one depth, or items of equal depth have equal priority --
    [sortedTodos] lists items of equal depth in ascending priority rank and
    keeps the relative order of any two items of differing depth. *)
Theorem C4_order_on_consistent_stores todos :
  consistentStore todos = true →
  ascendingWithinDepth (sortedTodos todos)
  ∧ crossDepthOrderKept todos (sortedTodos todos).
Proof.
  apply (sort_consistent sortedTodos).
  - apply Array_sort_Permutation.
  - intros l _. apply Array_sort_Sorted, compareTodos_asym.
  - intros l _. apply Array_sort_sorted_id.
Qed.

(** [rootsStore] has one depth only. *)
Lemma C4_witness :
  consistentStore rootsStore = true
  ∧ ascendingWithinDepth (sortedTodos rootsStore)
  ∧ crossDepthOrderKept rootsStore (sortedTodos rootsStore).
Proof.
  split; [reflexivity|].
  apply (C4_order_on_consistent_stores rootsStore). reflexivity.
Defined.

(** ** C5: toggling an id that no item has *)

(** C5 as stated fails: [toggleTodo] does not return for an absent id. *)
Lemma C5_counterexample :
  ("999" ∉ (id <$> rootsStore))
  ∧ toggleTodo rootsStore "999" = Throw TypeError
  ∧ toggleTodo rootsStore "999" ≠ Normal rootsStore.
Proof.
  split_and!; [|done|done]. by apply (bool_decide_unpack _).
Qed.

(** C5, amended: for every store and every id that no item has,
    [toggleTodo] throws a [TypeError] (it reads a field of the [undefined]
    found at index [-1]) before [setTodos] is reached; the handler run
    therefore leaves the whole component state, the store included, as it
    was. *)
Theorem C5_absent_id_throws trim st id' :
  id' ∉ (id <$> todos st) →
  toggleTodo (todos st) id' = Throw TypeError
  ∧ step trim st (Toggle id') = st.
Proof.
  intros Hnot. pose proof (toggleTodo_absent _ _ Hnot) as Hthrow.
  split; [done|]. simpl. by rewrite Hthrow.
Qed.

(** No item of [rootsStore] has the id 999. *)
Lemma C5_witness :
  ("999" ∉ (id <$> todos draftState))
  ∧ toggleTodo (todos draftState) "999" = Throw TypeError
  ∧ step trimAscii draftState (Toggle "999") = draftState.
Proof.
  assert ("999" ∉ (id <$> todos draftState)) as Hnot
    by (by apply (bool_decide_unpack _)).
  split; [exact Hnot|].
  exact (C5_absent_id_throws trimAscii draftState "999" Hnot).
Defined.

(** ** C6: sorting twice *)

(** C6 as stated fails: what sorting twice gives is left to the engine on
    stores on which the comparator is not consistent.  [interleavedStore] is
    such a store, and the merge sort is a sort that meets ECMAScript.  It
    moves the emergency root p in front of the low root a in the first run
    and, in the second run, the urgent root c in front of a as well, so
    sorting twice differs from sorting once.  (The insertion sort returns a
    third order.) *)
Lemma C6_counterexample :
  todos (run trimAscii initialState interleavedTrace) = interleavedStore
  ∧ consistentStore interleavedStore = false
  ∧ conformingSort (mergeSort compareTodos)
  ∧ id <$> mergeSort compareTodos interleavedStore
    = ["1"; "5"; "2"; "3"; "4"]
  ∧ id <$> mergeSort compareTodos (mergeSort compareTodos interleavedStore)
    = ["1"; "5"; "4"; "2"; "3"]
  ∧ mergeSort compareTodos (mergeSort compareTodos interleavedStore)
    ≠ mergeSort compareTodos interleavedStore
  ∧ id <$> sortedTodos interleavedStore = ["1"; "2"; "3"; "5"; "4"].
Proof. split_and!; try done. apply mergeSort_conforming. Qed.

(** C6, amended: on every store on which the comparator is consistent --
    all items share one depth, or items of equal depth have equal priority --
    sorting the displayed list again returns it unchanged.  The displayed
    list of such a store is such a store again; and the same holds whatever
    sort the engine uses, as long as it meets ECMAScript. *)
Theorem C6_idempotent_on_consistent_stores todos :
  consistentStore todos = true →
  consistentStore (sortedTodos todos) = true
  ∧ sortedTodos (sortedTodos todos) = sortedTodos todos
  ∧ ∀ sort, conformingSort sort →
            consistentStore (sort todos) = true
            ∧ sort (sort todos) = sort todos.
Proof.
  intros Hc.
  destruct (conformingSort_idempotent sortedTodos todos
              sortedTodos_conforming Hc) as [Hc' Hid].
  split_and!; [done | done |].
  intros sort Hsort. by apply conformingSort_idempotent.
Qed.

(** [rootsStore] has one depth only. *)
Lemma C6_witness :
  consistentStore rootsStore = true
  ∧ consistentStore (sortedTodos rootsStore) = true
  ∧ sortedTodos (sortedTodos rootsStore) = sortedTodos rootsStore
  ∧ ∀ sort, conformingSort sort →
            consistentStore (sort rootsStore) = true
            ∧ sort (sort rootsStore) = sort rootsStore.
Proof.
  split; [reflexivity|].
  apply (C6_idempotent_on_consistent_stores rootsStore). reflexivity.
Defined.

(** ** C7 and C8: the Enter key *)

Lemma handleKeyDown_Enter_blank trim now st e :
  key e = "Enter" → trim (inputValue st) = "" →
  handleKeyDown trim now st e = st.
Proof.
  intros Hkey Hblank. rewrite handleKeyDown_Enter by done.
  by rewrite bool_decide_eq_true_2.
Qed.

(** C7: when the trimmed draft text is not empty, Enter outside text
    composition appends exactly one item to the store, open, with the
    trimmed text and the draft's depth and priority, keeps the items that
    were there, empties the draft text, resets the draft priority to
    [normal] and keeps the draft depth. *)
Theorem C7_enter_commits_draft trim now st e :
  key e = "Enter" →
  isComposing e = false →
  trim (inputValue st) ≠ "" →
  let st' := handleKeyDown trim now st e in
  (∃ newTodo, todos st' = todos st ++ [newTodo]
              ∧ completed newTodo = false
              ∧ text newTodo = trim (inputValue st)
              ∧ depth newTodo = inputDepth st
              ∧ priority newTodo = inputPriority st)
  ∧ inputValue st' = ""
  ∧ inputPriority st' = normal
  ∧ inputDepth st' = inputDepth st.
Proof.
  intros Hkey Hcomp Hne. simpl.
  rewrite handleKeyDown_Enter by done.
  rewrite Hcomp, bool_decide_eq_false_2 by done. simpl.
  rewrite addTodo_commit by done. simpl.
  split_and!; try done. eexists. split_and!; done.
Qed.

(** Enter on a draft with text around blanks. *)
Lemma C7_witness :
  (key enterKey = "Enter"
   ∧ isComposing enterKey = false
   ∧ trimAscii (inputValue draftState) ≠ "")
  ∧ let st' := handleKeyDown trimAscii 1700000000000 draftState enterKey in
    (∃ newTodo, todos st' = todos draftState ++ [newTodo]
                ∧ completed newTodo = false
                ∧ text newTodo = trimAscii (inputValue draftState)
                ∧ depth newTodo = inputDepth draftState
                ∧ priority newTodo = inputPriority draftState)
    ∧ inputValue st' = ""
    ∧ inputPriority st' = normal
    ∧ inputDepth st' = inputDepth draftState.
Proof.
  split; [split_and!; [reflexivity | reflexivity | by vm_compute]|].
  apply (C7_enter_commits_draft trimAscii 1700000000000 draftState enterKey);
    [reflexivity | reflexivity | by vm_compute].
Defined.

(** C8: when the draft text trims to the empty string, Enter leaves the
    store, the draft depth and the draft priority as they were. *)
Theorem C8_enter_on_blank_draft trim now st e :
  key e = "Enter" →
  trim (inputValue st) = "" →
  let st' := handleKeyDown trim now st e in
  todos st' = todos st
  ∧ inputDepth st' = inputDepth st
  ∧ inputPriority st' = inputPriority st.
Proof.
  intros Hkey Hblank. simpl. by rewrite handleKeyDown_Enter_blank.
Qed.

(** Enter on a draft of three blanks. *)
Lemma C8_witness :
  (key enterKey = "Enter" ∧ trimAscii (inputValue blankDraftState) = "")
  ∧ let st' :=
        handleKeyDown trimAscii 1700000000000 blankDraftState enterKey in
    todos st' = todos blankDraftState
    ∧ inputDepth st' = inputDepth blankDraftState
    ∧ inputPriority st' = inputPriority blankDraftState.
Proof.
  split; [split; reflexivity|].
  apply (C8_enter_on_blank_draft trimAscii 1700000000000 blankDraftState
           enterKey); reflexivity.
Defined.

(** ** C9: ids *)

(** C9: the component takes the id of a new item from the clock, and nothing
    else makes ids differ.  Two drafts committed while the clock shows the
    same millisecond get the same id.  The component uses the id as the key
    of a row and to find the item of a checkbox: here the checkbox of the
    second row, b, toggles the first item, a, and leaves b open. *)
Theorem C9_same_clock_reading_same_id :
  todos (run trimAscii initialState sameTickTrace) = sameTickStore
  ∧ id <$> sameTickStore = ["1000"; "1000"]
  ∧ text <$> sameTickStore = ["a"; "b"]
  ∧ ¬ NoDup (id <$> todos (run trimAscii initialState sameTickTrace))
  ∧ (∃ b, sortedTodos sameTickStore !! 1%nat = Some b
          ∧ text b = "b"
          ∧ toggleTodo sameTickStore (id b)
            = Normal [item "1000" "a" 0 true normal;
                      item "1000" "b" 0 false normal]).
Proof.
  split_and!; [done | done | done | by apply (bool_decide_unpack _) |].
  by eexists.
Qed.

(** ** C10: toggling changes completed flags only *)

(** C10: when some item carries the id, [toggleTodo] returns a store of the
    same length whose item at every index has the id, text, depth and
    priority of the item of the input at that index. *)
Theorem C10_toggle_changes_completed_only todos id' :
  id' ∈ (id <$> todos) →
  ∃ r, toggleTodo todos id' = Normal r
       ∧ length r = length todos
       ∧ ∀ i a, todos !! i = Some a →
           ∃ b, r !! i = Some b
                ∧ id b = id a ∧ text b = text a
                ∧ depth b = depth a ∧ priority b = priority a.
Proof.
  intros Hin.
  destruct (toggleTodo_present _ _ Hin) as (k & t & _ & Ht & _ & Hr).
  exists (updateParentCompletion (toggleDown todos k t)).
  assert (Forall2 sameFrame todos
            (updateParentCompletion (toggleDown todos k t))) as Hframe.
  { eapply sameFrame_list_trans;
      [by apply toggleDown_sameFrame | apply updateParentCompletion_sameFrame]. }
  split_and!; [done | symmetry; by eapply Forall2_length |].
  intros i a Hi.
  destruct (Forall2_lookup_l _ _ _ _ _ Hframe Hi) as (b & Hb & Hab).
  exists b. unfold sameFrame in Hab. by intuition.
Qed.

(** C10 at the item B of [treeStore]. *)
Lemma C10_witness :
  "2" ∈ (id <$> treeStore)
  ∧ ∃ r, toggleTodo treeStore "2" = Normal r
         ∧ length r = length treeStore
         ∧ ∀ i a, treeStore !! i = Some a →
             ∃ b, r !! i = Some b
                  ∧ id b = id a ∧ text b = text a
                  ∧ depth b = depth a ∧ priority b = priority a.
Proof.
  assert ("2" ∈ (id <$> treeStore)) as Hin
    by (by apply (bool_decide_unpack _)).
  split; [exact Hin|].
  exact (C10_toggle_changes_completed_only treeStore "2" Hin).
Defined.

(** * Further properties of the component *)

(** ** Key handling *)

Section KeyFacts.
Variable trim : string → string.

Lemma handleKeyDown_commits now st e :
  commits trim st e = true → handleKeyDown trim now st e = addTodo trim now st.
Proof.
  unfold commits.
  intros [[Hkey%bool_decide_eq_true Hne]%andb_true_iff Hcomp]%andb_true_iff.
  rewrite handleKeyDown_Enter by done. by rewrite Hne, Hcomp.
Qed.

Lemma handleKeyDown_no_commit now st e :
  commits trim st e = false →
  todos (handleKeyDown trim now st e) = todos st
  ∧ inputValue (handleKeyDown trim now st e) = inputValue st.
Proof.
  unfold commits, handleKeyDown. intros Hc. rewrite Hc.
  by repeat case_match.
Qed.

Lemma handleKeyDown_depth_range now st e :
  0 ≤ inputDepth st ≤ 2 → 0 ≤ inputDepth (handleKeyDown trim now st e) ≤ 2.
Proof.
  intros Hd. unfold handleKeyDown, addTodo.
  destruct (bool_decide (key e = "Tab")); [destruct (shiftKey e); simpl; lia|].
  destruct (bool_decide (key e = "ArrowUp")); [done|].
  destruct (bool_decide (key e = "ArrowDown")); [done|].
  destruct (bool_decide (key e = "Backspace") && bool_decide (inputValue st = "")
            && (0 <? inputDepth st)) eqn:Hb.
  { apply andb_true_iff in Hb as [_ Hpos%Z.ltb_lt]. simpl. lia. }
  by repeat case_match.
Qed.

Lemma wellFormedItem_sameFrame l r :
  Forall2 sameFrame l r → Forall wellFormedItem l → Forall wellFormedItem r.
Proof.
  induction 1 as [|x y l r (_ & Ht & Hd & _) _ IH]; [done|].
  intros [Hx Hl]%Forall_cons. constructor; [|by apply IH].
  unfold wellFormedItem in *. by rewrite <- Ht, <- Hd.
Qed.

Lemma step_wellFormed st ev :
  0 ≤ inputDepth st ≤ 2 →
  Forall wellFormedItem (todos st) →
  0 ≤ inputDepth (step trim st ev) ≤ 2
  ∧ Forall wellFormedItem (todos (step trim st ev)).
Proof.
  intros Hd Hall. destruct ev as [e now|value|id']; simpl.
  - split; [by apply handleKeyDown_depth_range|].
    destruct (commits trim st e) eqn:Hc.
    + rewrite (handleKeyDown_commits _ _ _ Hc).
      unfold commits in Hc.
      apply andb_true_iff in Hc as [[_ Hne%negb_true_iff]%andb_true_iff _].
      apply bool_decide_eq_false in Hne.
      rewrite addTodo_commit by done. simpl.
      apply Forall_app. split; [done|]. apply Forall_singleton. by split.
    + by rewrite (proj1 (handleKeyDown_no_commit now st e Hc)).
  - done.
  - destruct (toggleTodo (todos st) id') as [r|] eqn:Hr; [|done]. simpl.
    split; [done|]. unfold toggleTodo in Hr.
    destruct (findIndex _ (todos st)) as [k|]; [|done].
    destruct (todos st !! k) as [t|] eqn:Hk; [|done]. injection Hr as <-.
    eapply wellFormedItem_sameFrame; [|done].
    eapply sameFrame_list_trans;
      [by apply toggleDown_sameFrame | apply updateParentCompletion_sameFrame].
Qed.

Lemma run_wellFormed st evs :
  0 ≤ inputDepth st ≤ 2 →
  Forall wellFormedItem (todos st) →
  0 ≤ inputDepth (run trim st evs) ≤ 2
  ∧ Forall wellFormedItem (todos (run trim st evs)).
Proof.
  revert st. induction evs as [|ev evs IH]; intros st Hd Hall; [done|].
  simpl. fold (run trim (step trim st ev) evs).
  destruct (step_wellFormed st ev Hd Hall). by apply IH.
Qed.

End KeyFacts.

(** X1: whatever the user does from the initial state, the draft depth stays
    within 0..2 and every item of the store has a depth within 0..2 and a
    non-empty text. *)
Theorem X1_reachable_states_well_formed trim evs :
  0 ≤ inputDepth (run trim initialState evs) ≤ 2
  ∧ Forall wellFormedItem (todos (run trim initialState evs)).
Proof. apply run_wellFormed; [simpl; lia | constructor]. Qed.

(** X2: the priority selection is the cycle low, normal, urgent, emergency,
    low.  ArrowUp moves the draft priority one step forwards along it and
    ArrowDown one step backwards, and neither changes anything else of the
    state.  So each key undoes the other, and four presses of ArrowUp bring
    the state back. *)
Theorem X2_arrow_keys_cycle trim n1 n2 n3 n4 st up down :
  key up = "ArrowUp" →
  key down = "ArrowDown" →
  handleKeyDown trim n1 st up
  = setInputPriority st (nextPriority (inputPriority st))
  ∧ handleKeyDown trim n1 st down
    = setInputPriority st (prevPriority (inputPriority st))
  ∧ handleKeyDown trim n2 (handleKeyDown trim n1 st up) down = st
  ∧ handleKeyDown trim n2 (handleKeyDown trim n1 st down) up = st
  ∧ handleKeyDown trim n4 (handleKeyDown trim n3
      (handleKeyDown trim n2 (handleKeyDown trim n1 st up) up) up) up = st.
Proof.
  intros Hup Hdown. unfold handleKeyDown. rewrite Hup, Hdown.
  destruct st as [l v d []]; by vm_compute.
Qed.

(** Arrow keys on a draft of priority urgent. *)
Lemma X2_witness :
  (key arrowUpKey = "ArrowUp" ∧ key arrowDownKey = "ArrowDown")
  ∧ handleKeyDown trimAscii 1 draftState arrowUpKey
    = setInputPriority draftState (nextPriority (inputPriority draftState))
  ∧ handleKeyDown trimAscii 1 draftState arrowDownKey
    = setInputPriority draftState (prevPriority (inputPriority draftState))
  ∧ handleKeyDown trimAscii 2
      (handleKeyDown trimAscii 1 draftState arrowUpKey) arrowDownKey
    = draftState
  ∧ handleKeyDown trimAscii 2
      (handleKeyDown trimAscii 1 draftState arrowDownKey) arrowUpKey
    = draftState
  ∧ handleKeyDown trimAscii 4 (handleKeyDown trimAscii 3
      (handleKeyDown trimAscii 2
         (handleKeyDown trimAscii 1 draftState arrowUpKey) arrowUpKey)
      arrowUpKey) arrowUpKey = draftState.
Proof.
  split; [by split|].
  apply (X2_arrow_keys_cycle trimAscii 1 2 3 4 draftState
           arrowUpKey arrowDownKey); reflexivity.
Defined.

(** X3: Shift+Tab undoes Tab below the deepest level and Tab undoes
    Shift+Tab above the top level; at the deepest level Tab, and at the top
    level Shift+Tab, leave the state as it is. *)
Theorem X3_tab_keys_clamp trim n1 n2 st tab shiftTab :
  key tab = "Tab" → shiftKey tab = false →
  key shiftTab = "Tab" → shiftKey shiftTab = true →
  0 ≤ inputDepth st ≤ 2 →
  (inputDepth st < 2 →
     handleKeyDown trim n2 (handleKeyDown trim n1 st tab) shiftTab = st)
  ∧ (inputDepth st = 2 → handleKeyDown trim n1 st tab = st)
  ∧ (0 < inputDepth st →
       handleKeyDown trim n2 (handleKeyDown trim n1 st shiftTab) tab = st)
  ∧ (inputDepth st = 0 → handleKeyDown trim n1 st shiftTab = st).
Proof.
  intros Ht Hts Hs Hss Hd. unfold handleKeyDown. rewrite Ht, Hts, Hs, Hss.
  destruct st as [l v d p]. simpl in *. unfold setInputDepth. simpl.
  split_and!; intros; f_equal; lia.
Qed.

(** Tab keys on a draft at depth 1. *)
Lemma X3_witness :
  (key tabKey = "Tab" ∧ shiftKey tabKey = false
   ∧ key shiftTabKey = "Tab" ∧ shiftKey shiftTabKey = true
   ∧ 0 ≤ inputDepth draftState ≤ 2)
  ∧ (inputDepth draftState < 2 →
       handleKeyDown trimAscii 2 (handleKeyDown trimAscii 1 draftState tabKey)
         shiftTabKey = draftState)
  ∧ (inputDepth draftState = 2 →
       handleKeyDown trimAscii 1 draftState tabKey = draftState)
  ∧ (0 < inputDepth draftState →
       handleKeyDown trimAscii 2
         (handleKeyDown trimAscii 1 draftState shiftTabKey) tabKey
       = draftState)
  ∧ (inputDepth draftState = 0 →
       handleKeyDown trimAscii 1 draftState shiftTabKey = draftState).
Proof.
  split; [split_and!; try reflexivity; simpl; lia|].
  apply (X3_tab_keys_clamp trimAscii 1 2 draftState tabKey shiftTabKey);
    try reflexivity; simpl; lia.
Defined.

(** X4: a key press changes nothing at all when it is Enter during text
    composition, when it is Backspace on a non-empty text or at the top
    level, or when the key is none of Tab, ArrowUp, ArrowDown, Backspace and
    Enter. *)
Theorem X4_keys_without_effect trim now st e :
  (key e = "Enter" ∧ isComposing e = true)
  ∨ (key e = "Backspace" ∧ (inputValue st ≠ "" ∨ inputDepth st ≤ 0))
  ∨ key e ∉ ["Tab"; "ArrowUp"; "ArrowDown"; "Backspace"; "Enter"] →
  handleKeyDown trim now st e = st.
Proof.
  unfold handleKeyDown. intros [[Hk Hc]|[[Hk Hb]|Hk]].
  - rewrite Hk, Hc. simpl. by rewrite andb_false_r.
  - rewrite Hk. simpl. destruct Hb as [Hv|Hd].
    + rewrite (bool_decide_eq_false_2 (inputValue st = "")) by done. done.
    + rewrite (proj2 (Z.ltb_ge _ _)) by done. by rewrite andb_false_r.
  - rewrite !not_elem_of_cons in Hk. destruct Hk as (?&?&?&?&?&_).
    rewrite (bool_decide_eq_false_2 (key e = "Tab")),
      (bool_decide_eq_false_2 (key e = "ArrowUp")),
      (bool_decide_eq_false_2 (key e = "ArrowDown")),
      (bool_decide_eq_false_2 (key e = "Backspace")),
      (bool_decide_eq_false_2 (key e = "Enter")) by done.
    done.
Qed.

(** Enter while a character is being composed. *)
Lemma X4_witness :
  ((key {| key := "Enter"; shiftKey := false; isComposing := true |} = "Enter"
    ∧ isComposing {| key := "Enter"; shiftKey := false; isComposing := true |}
      = true)
   ∨ (key {| key := "Enter"; shiftKey := false; isComposing := true |}
      = "Backspace"
      ∧ (inputValue draftState ≠ "" ∨ inputDepth draftState ≤ 0))
   ∨ key {| key := "Enter"; shiftKey := false; isComposing := true |}
     ∉ ["Tab"; "ArrowUp"; "ArrowDown"; "Backspace"; "Enter"])
  ∧ handleKeyDown trimAscii 5 draftState
      {| key := "Enter"; shiftKey := false; isComposing := true |}
    = draftState.
Proof.
  assert ((key {| key := "Enter"; shiftKey := false; isComposing := true |}
           = "Enter"
           ∧ isComposing
               {| key := "Enter"; shiftKey := false; isComposing := true |}
             = true)
          ∨ (key {| key := "Enter"; shiftKey := false; isComposing := true |}
             = "Backspace"
             ∧ (inputValue draftState ≠ "" ∨ inputDepth draftState ≤ 0))
          ∨ key {| key := "Enter"; shiftKey := false; isComposing := true |}
            ∉ ["Tab"; "ArrowUp"; "ArrowDown"; "Backspace"; "Enter"]) as H
    by (left; split; reflexivity).
  split; [exact H|].
  exact (X4_keys_without_effect trimAscii 5 draftState _ H).
Defined.

(** X5: provided trimming the empty string gives the empty string, a second
    Enter right after a committing Enter does nothing: two presses add one
    item. *)
Theorem X5_second_enter_does_nothing trim n1 n2 st e e' :
  trim "" = "" →
  commits trim st e = true →
  key e' = "Enter" →
  handleKeyDown trim n2 (handleKeyDown trim n1 st e) e'
  = handleKeyDown trim n1 st e.
Proof.
  intros Htrim Hc Hkey.
  rewrite (handleKeyDown_commits _ _ _ _ Hc).
  unfold commits in Hc.
  apply andb_true_iff in Hc as [[_ Hne%negb_true_iff]%andb_true_iff _].
  apply bool_decide_eq_false in Hne.
  rewrite addTodo_commit by done.
  by apply handleKeyDown_Enter_blank.
Qed.

(** Enter twice on a draft with text. *)
Lemma X5_witness :
  (trimAscii "" = "" ∧ commits trimAscii draftState enterKey = true
   ∧ key enterKey = "Enter")
  ∧ handleKeyDown trimAscii 8 (handleKeyDown trimAscii 7 draftState enterKey)
      enterKey
    = handleKeyDown trimAscii 7 draftState enterKey.
Proof.
  split; [by split_and!|].
  apply (X5_second_enter_does_nothing trimAscii 7 8 draftState
           enterKey enterKey); reflexivity.
Defined.

Section AppendOnly.
Variable trim : string → string.

Lemma step_appends st ev :
  ∃ kept new,
    todos (step trim st ev) = kept ++ new
    ∧ Forall2 sameFrame (todos st) kept
    ∧ (length new ≤ length (timestamps [ev]))%nat.
Proof.
  destruct ev as [e now|value|id']; simpl.
  - destruct (handleKeyDown_todos trim now st e) as [->|(newTodo & -> & _)].
    + exists (todos st), []. rewrite app_nil_r.
      split_and!; [done | apply sameFrame_list_refl | simpl; lia].
    + exists (todos st), [newTodo].
      split_and!; [done | apply sameFrame_list_refl | simpl; lia].
  - exists (todos st), []. rewrite app_nil_r.
    split_and!; [done | apply sameFrame_list_refl | simpl; lia].
  - destruct (toggleTodo (todos st) id') as [r|] eqn:Hr; simpl.
    + exists r, []. rewrite app_nil_r. split_and!; [done | | simpl; lia].
      unfold toggleTodo in Hr.
      destruct (findIndex _ (todos st)) as [k|]; [|done].
      destruct (todos st !! k) as [t|] eqn:Hk; [|done]. injection Hr as <-.
      eapply sameFrame_list_trans;
        [by apply toggleDown_sameFrame
        | apply updateParentCompletion_sameFrame].
    + exists (todos st), []. rewrite app_nil_r.
      split_and!; [done | apply sameFrame_list_refl | simpl; lia].
Qed.

Lemma timestamps_cons ev evs :
  timestamps (ev :: evs) = timestamps [ev] ++ timestamps evs.
Proof. by destruct ev. Qed.

Lemma run_appends st evs :
  ∃ kept new,
    todos (run trim st evs) = kept ++ new
    ∧ Forall2 sameFrame (todos st) kept
    ∧ (length new ≤ length (timestamps evs))%nat.
Proof.
  revert st. induction evs as [|ev evs IH]; intros st.
  - exists (todos st), []. rewrite app_nil_r.
    split_and!; [done | apply sameFrame_list_refl | simpl; lia].
  - change (run trim st (ev :: evs)) with (run trim (step trim st ev) evs).
    destruct (step_appends st ev) as (kept1 & new1 & Heq1 & Hf1 & Hlen1).
    destruct (IH (step trim st ev)) as (kept2 & new2 & Heq2 & Hf2 & Hlen2).
    rewrite Heq1 in Hf2.
    apply Forall2_app_inv_l in Hf2 as (k2a & k2b & Hfa & Hfb & ->).
    exists k2a, (k2b ++ new2). split_and!.
    + by rewrite Heq2, <- app_assoc.
    + by eapply sameFrame_list_trans.
    + rewrite timestamps_cons, !length_app.
      apply Forall2_length in Hfb. lia.
Qed.

End AppendOnly.

(** X6: the store is append-only.  After any sequence of key presses, edits
    and toggles it consists of the items it had before, in their order and
    with id, text, depth and priority unchanged, followed by new items, at
    most one per key press. *)
Theorem X6_store_is_append_only trim st evs :
  ∃ kept new,
    todos (run trim st evs) = kept ++ new
    ∧ Forall2 sameFrame (todos st) kept
    ∧ (length new ≤ length (timestamps evs))%nat.
Proof. apply run_appends. Qed.

(** ** The two passes of a toggle *)

Lemma todo_eq a b : sameFrame a b → completed a = completed b → a = b.
Proof.
  destruct a, b. unfold sameFrame. simpl. intros (-> & -> & -> & ->) ->. done.
Qed.

Lemma set_completed_twice t c c' :
  set_completed (set_completed t c) c' = set_completed t c'.
Proof. done. Qed.

Lemma set_completed_same t : set_completed t (completed t) = t.
Proof. by destruct t. Qed.

Lemma recompute_idem x rest : recompute (recompute x rest) rest = recompute x rest.
Proof.
  apply todo_eq.
  { pose proof (recompute_sameFrame (recompute x rest) rest) as H.
    unfold sameFrame in *. intuition congruence. }
  destruct (decide (depth x < 2)) as [Hd|Hd].
  - destruct (directChildren (depth x) rest) as [|c cs] eqn:Hc.
    + rewrite (recompute_no_children x) by done.
      by rewrite (recompute_no_children x).
    + rewrite (recompute_children (recompute x rest));
        rewrite ?recompute_depth, ?Hc; [|done..].
      rewrite (recompute_children x); rewrite ?Hc; done.
  - by rewrite !(recompute_deep _ rest) by (rewrite ?recompute_depth; lia).
Qed.

Lemma foldr_upStep_idem l :
  foldr upStep [] (foldr upStep [] l) = foldr upStep [] l.
Proof.
  induction l as [|x l IH]; [done|]. simpl.
  set (U := foldr upStep [] l) in *.
  change (foldr upStep [] (upStep x U))
    with (upStep (recompute x U) (foldr upStep [] U)).
  rewrite IH. unfold upStep. by rewrite recompute_idem.
Qed.

(** X7: the upward pass is idempotent: run on its own result it changes
    nothing. *)
Theorem X7_upward_pass_idempotent l :
  updateParentCompletion (updateParentCompletion l) = updateParentCompletion l.
Proof. rewrite !updateParentCompletion_view. apply foldr_upStep_idem. Qed.

(** X8: the direct children that [getDirectChildren] returns for an index
    are exactly the items of its run of descendants that lie one level below
    it, in store order. *)
Theorem X8_direct_children_of_run l p t :
  l !! p = Some t →
  getDirectChildren l p
  = filter (λ x, depth x = depth t + 1) (descendants l p).
Proof.
  intros Hp. rewrite (getDirectChildren_view _ _ _ Hp).
  unfold descendants. rewrite Hp. apply directChildren_filter.
Qed.

(** The children of the root of [treeStore]. *)
Lemma X8_witness :
  treeStore !! 0%nat = Some (item "1" "A" 0 false normal)
  ∧ getDirectChildren treeStore 0
    = filter (λ x, depth x = depth (item "1" "A" 0 false normal) + 1)
        (descendants treeStore 0).
Proof.
  split; [reflexivity|].
  apply (X8_direct_children_of_run treeStore 0 (item "1" "A" 0 false normal)).
  reflexivity.
Defined.

(** *** Completed flags only ever grow in the cascade *)

Lemma flagLe_refl a : flagLe a a.
Proof. split; [apply sameFrame_refl | done]. Qed.

Lemma flagLe_trans a b c : flagLe a b → flagLe b c → flagLe a c.
Proof. intros [? ?] [? ?]. split; [by eapply sameFrame_trans | auto]. Qed.

Lemma flagLe_list_refl (l : list Todo) : Forall2 flagLe l l.
Proof. induction l; constructor; auto using flagLe_refl. Qed.

Lemma flagLe_list_trans (l1 l2 l3 : list Todo) :
  Forall2 flagLe l1 l2 → Forall2 flagLe l2 l3 → Forall2 flagLe l1 l3.
Proof.
  intros H. revert l3. induction H; intros l3 H3; inversion H3; subst;
    constructor; eauto using flagLe_trans.
Qed.

Lemma flagLe_set_true a : flagLe a (set_completed a true).
Proof. split; [apply sameFrame_set_completed | done]. Qed.

Lemma cascade_flagLe n d s : Forall2 flagLe s (cascade n d s).
Proof.
  revert d s. induction n as [|n IH]; intros d [|x rest]; simpl;
    try apply flagLe_list_refl.
  destruct (depth x <=? d); [apply flagLe_list_refl|].
  destruct (depth x =? d + 1); constructor;
    eauto using flagLe_refl, flagLe_set_true, flagLe_list_trans.
Qed.

Lemma directChildren_flagLe d s s' :
  Forall2 flagLe s s' →
  Forall2 flagLe (directChildren d s) (directChildren d s').
Proof.
  induction 1 as [|x y s s' Hxy _ IH]; simpl; [constructor|].
  pose proof Hxy as [(_ & _ & Hd & _) _]. rewrite <- Hd.
  repeat case_match; try constructor; done.
Qed.

Lemma flagLe_Forall_completed s s' :
  Forall2 flagLe s s' → Forall isCompleted s → Forall isCompleted s'.
Proof.
  induction 1 as [|x y s s' [_ Hxy] _ IH]; [done|].
  intros [Hx Hs]%Forall_cons. constructor; [by apply Hxy | by apply IH].
Qed.

Lemma recompute_flagLe x x' rest rest' :
  flagLe x x' → Forall2 flagLe rest rest' →
  flagLe (recompute x rest) (recompute x' rest').
Proof.
  intros [Hf Hc] Hrest. split.
  { eapply sameFrame_trans; [|apply recompute_sameFrame].
    pose proof (recompute_sameFrame x rest) as H.
    unfold sameFrame in *. intuition congruence. }
  pose proof Hf as (_ & _ & Hd & _).
  pose proof (directChildren_flagLe (depth x) _ _ Hrest) as Hch.
  destruct (decide (depth x < 2)) as [Hlt|Hge].
  - destruct (directChildren (depth x) rest) as [|c cs] eqn:Hc1.
    + inversion Hch as [Hc2|]; subst.
      rewrite (recompute_no_children x) by done.
      rewrite (recompute_no_children x') by (by rewrite <- Hd).
      done.
    + destruct (directChildren (depth x) rest') as [|c' cs'] eqn:Hc2;
        [by inversion Hch|].
      rewrite (recompute_children x) by (by rewrite ?Hc1).
      rewrite (recompute_children x') by (rewrite <- ?Hd, ?Hc2; done || lia).
      rewrite <- Hd, Hc1, Hc2. rewrite !forallb_isCompleted.
      by apply flagLe_Forall_completed.
  - rewrite (recompute_deep x) by lia.
    rewrite (recompute_deep x') by lia. done.
Qed.

Lemma foldr_upStep_flagLe l l' :
  Forall2 flagLe l l' →
  Forall2 flagLe (foldr upStep [] l) (foldr upStep [] l').
Proof.
  induction 1 as [|x y l l' Hxy _ IH]; simpl; [constructor|].
  unfold upStep at 1 3. constructor; [by apply recompute_flagLe | done].
Qed.

(** After the cascade below a parent of depth [d] and the upward pass, all
    direct children of that parent are completed. *)
Lemma cascade_children_completed n d s :
  n = length s →
  Forall isCompleted (directChildren d (foldr upStep [] (cascade n d s))).
Proof.
  revert d s. induction n as [|n IH]; intros d [|x rest] Hn;
    try done; try (simpl; constructor).
  simpl in Hn. simpl.
  destruct (depth x <=? d) eqn:H1.
  { simpl. rewrite recompute_depth, H1. constructor. }
  destruct (depth x =? d + 1) eqn:H2.
  - simpl. rewrite recompute_depth. simpl. rewrite H1, H2.
    set (s2 := cascade n (d + 1) rest).
    assert (length s2 = n) as Hs2 by (unfold s2; rewrite cascade_length; lia).
    constructor; [|by apply IH].
    unfold isCompleted. rewrite recompute_keep; [done | done |]. simpl.
    apply Z.eqb_eq in H2. rewrite H2.
    eapply flagLe_Forall_completed;
      [|apply (IH (d + 1) rest); lia].
    apply directChildren_flagLe, foldr_upStep_flagLe, cascade_flagLe.
  - simpl. rewrite recompute_depth, H1, H2. apply IH. lia.
Qed.

(** X9: toggling an open item of any store leaves it completed in the
    result, together with all of its direct children. *)
Theorem X9_completing_sticks todos id' k t :
  findIndex (λ todo, String.eqb (id todo) id') todos = Some k →
  todos !! k = Some t →
  completed t = false →
  ∃ r, toggleTodo todos id' = Normal r
       ∧ r !! k = Some (set_completed t true)
       ∧ Forall isCompleted (getDirectChildren r k).
Proof.
  intros Hk Ht Hc.
  exists (updateParentCompletion (toggleDown todos k t)).
  split; [unfold toggleTodo; by rewrite Hk, Ht|].
  pose proof (lookup_lt_Some _ _ _ Ht) as Hlt.
  unfold toggleDown. rewrite Hc. simpl.
  set (t' := set_completed t true).
  rewrite (updateChildrenCompletion_view _ _ t')
    by (by apply list_lookup_insert_eq).
  rewrite drop_insert_lt, length_insert by lia.
  change (depth t') with (depth t).
  rewrite take_insert_lt by lia.
  rewrite (take_S_r todos k t) by done.
  rewrite insert_app_r_alt by (rewrite length_take; lia).
  rewrite length_take.
  replace (k - k `min` length todos)%nat with 0%nat by lia. simpl.
  set (s := drop (S k) todos).
  assert (length todos - S k = length s)%nat as ->
    by (unfold s; by rewrite length_drop).
  set (c := cascade (length s) (depth t) s).
  pose proof (cascade_children_completed (length s) (depth t) s eq_refl)
    as Hch. fold c in Hch.
  assert (recompute t' (foldr upStep [] c) = t') as Hkeep
    by (by apply recompute_keep).
  destruct (foldr_upStep_split (t' :: foldr upStep [] c) (take k todos))
    as (pre' & Hsplit & Hlen).
  rewrite length_take in Hlen.
  assert (updateParentCompletion ((take k todos ++ [t']) ++ c)
          = pre' ++ t' :: foldr upStep [] c) as ->.
  { rewrite updateParentCompletion_view, <- app_assoc. simpl.
    rewrite foldr_app. simpl. unfold upStep at 2. by rewrite Hkeep. }
  assert ((pre' ++ t' :: foldr upStep [] c) !! k = Some t') as Hlook.
  { rewrite lookup_app_r by lia.
    by replace (k - length pre')%nat with 0%nat by lia. }
  split; [done|].
  rewrite (getDirectChildren_view _ _ _ Hlook).
  rewrite (cons_middle t' pre'), app_assoc.
  rewrite drop_app_length' by (rewrite length_app; simpl; lia).
  done.
Qed.

(** Completing the root of [gapStore], whose only descendant skips a level. *)
Lemma X9_witness :
  (findIndex (λ todo, String.eqb (id todo) "1") gapStore = Some 0%nat
   ∧ gapStore !! 0%nat = Some (item "1" "A" 0 false normal)
   ∧ completed (item "1" "A" 0 false normal) = false)
  ∧ ∃ r, toggleTodo gapStore "1" = Normal r
         ∧ r !! 0%nat = Some (set_completed (item "1" "A" 0 false normal) true)
         ∧ Forall isCompleted (getDirectChildren r 0).
Proof.
  split; [by split_and!|].
  apply (X9_completing_sticks gapStore "1" 0 (item "1" "A" 0 false normal));
    reflexivity.
Defined.

Lemma descendantRun_length_mono d d' s :
  d ≤ d' → (length (descendantRun d' s) ≤ length (descendantRun d s))%nat.
Proof.
  intros Hd. induction s as [|x s IH]; simpl; [done|].
  destruct (d' <? depth x) eqn:H'; [|simpl; lia].
  apply Z.ltb_lt in H'.
  rewrite (proj2 (Z.ltb_lt d (depth x))) by lia. simpl. lia.
Qed.

(** The cascade writes inside the run of descendants only. *)
Lemma cascade_outside n d s i :
  n = length s →
  (length (descendantRun d s) ≤ i)%nat →
  cascade n d s !! i = s !! i.
Proof.
  revert d s i. induction n as [|n IH]; intros d [|x rest] i Hn Hi; try done.
  simpl in Hn. simpl in *.
  destruct (depth x <=? d) eqn:H1; [done|].
  apply Z.leb_gt in H1.
  rewrite (proj2 (Z.ltb_lt d (depth x))) in Hi by done. simpl in Hi.
  destruct i as [|i]; [lia|].
  pose proof (descendantRun_length_mono d (d + 1) rest ltac:(lia)).
  destruct (depth x =? d + 1); simpl.
  - rewrite IH.
    + apply IH; lia.
    + rewrite cascade_length. lia.
    + rewrite <- (Forall2_length _ _ _
        (descendantRun_sameFrame d _ _ (cascade_sameFrame n (d + 1) rest))).
      lia.
  - apply IH; lia.
Qed.

(** X10: [updateChildrenCompletion] with [true] never turns a completed item
    into an open one, keeps every other field of every item, and leaves the
    parent, everything before it and everything behind its run of
    descendants exactly as it was. *)
Theorem X10_cascade_is_local l p t :
  l !! p = Some t →
  Forall2 flagLe l (updateChildrenCompletion l p true)
  ∧ ∀ j, (j ≤ p ∨ p + length (descendants l p) < j)%nat →
         updateChildrenCompletion l p true !! j = l !! j.
Proof.
  intros Hp. pose proof (lookup_lt_Some _ _ _ Hp) as Hlt.
  rewrite (updateChildrenCompletion_view _ _ _ Hp).
  assert (length (take (S p) l) = S p) as Htake
    by (rewrite length_take; lia).
  assert (length l - S p = length (drop (S p) l))%nat as ->
    by (by rewrite length_drop).
  split.
  - rewrite <- (take_drop (S p) l) at 1.
    apply Forall2_app; [apply flagLe_list_refl | apply cascade_flagLe].
  - intros j [Hj|Hj].
    + rewrite lookup_app_l by lia. apply lookup_take_lt. lia.
    + unfold descendants in Hj. rewrite Hp in Hj.
      rewrite lookup_app_r by lia. rewrite Htake.
      rewrite cascade_outside by (done || lia).
      rewrite lookup_drop. f_equal. lia.
Qed.

(** The cascade below the first child of [treeStore]. *)
Lemma X10_witness :
  treeStore !! 1%nat = Some (item "2" "B" 1 false urgent)
  ∧ Forall2 flagLe treeStore (updateChildrenCompletion treeStore 1 true)
  ∧ ∀ j, (j ≤ 1 ∨ 1 + length (descendants treeStore 1) < j)%nat →
         updateChildrenCompletion treeStore 1 true !! j = treeStore !! j.
Proof.
  split; [reflexivity|].
  apply (X10_cascade_is_local treeStore 1 (item "2" "B" 1 false urgent)).
  reflexivity.
Defined.

(** *** What the upward pass depends on *)

Lemma directChildren_sameFrame d s s' :
  Forall2 sameFrame s s' →
  Forall2 sameFrame (directChildren d s) (directChildren d s').
Proof.
  induction 1 as [|x y s s' Hxy _ IH]; simpl; [constructor|].
  pose proof Hxy as (_ & _ & Hd & _). rewrite <- Hd.
  repeat case_match; try constructor; done.
Qed.

Lemma directChildren_sameFrame_nil d s s' :
  Forall2 sameFrame s s' →
  directChildren d s = [] ↔ directChildren d s' = [].
Proof.
  intros H%(directChildren_sameFrame d)%Forall2_length.
  split; intros Hnil; rewrite Hnil in H; simpl in H.
  - by destruct (directChildren d s').
  - by destruct (directChildren d s).
Qed.

Lemma sameFrame_list_sym (l r : list Todo) :
  Forall2 sameFrame l r → Forall2 sameFrame r l.
Proof.
  induction 1 as [|x y l r Hxy _ IH]; constructor; [|done].
  unfold sameFrame in *. intuition congruence.
Qed.

(** The flag of an item that has direct children and a depth below 2 does
    not matter to the upward pass. *)
Lemma recompute_ext x x' rest :
  sameFrame x x' →
  (depth x < 2 ∧ directChildren (depth x) rest ≠ [])
  ∨ completed x = completed x' →
  recompute x rest = recompute x' rest.
Proof.
  intros Hf [[Hd Hne]|Hc]; [|by rewrite (todo_eq x x')].
  pose proof Hf as (_ & _ & Hdx & _).
  apply todo_eq.
  - pose proof (recompute_sameFrame x rest).
    pose proof (recompute_sameFrame x' rest).
    unfold sameFrame in *. intuition congruence.
  - rewrite (recompute_children x) by done.
    rewrite (recompute_children x') by (by rewrite <- Hdx).
    by rewrite Hdx.
Qed.

Lemma foldr_upStep_ext l l' :
  Forall2 sameFrame l l' →
  (∀ i x x', l !! i = Some x → l' !! i = Some x' →
     (depth x < 2 ∧ directChildren (depth x) (drop (S i) l) ≠ [])
     ∨ completed x = completed x') →
  foldr upStep [] l = foldr upStep [] l'.
Proof.
  induction 1 as [|x x' l l' Hxx Hll IH]; intros Hflags; [done|].
  simpl. rewrite <- IH by (intros i; apply (Hflags (S i))).
  unfold upStep. f_equal. apply recompute_ext; [done|].
  destruct (Hflags 0%nat x x' eq_refl eq_refl) as [[Hd Hne]|Hc]; [left|by right].
  split; [done|]. simpl in Hne. rewrite drop_0 in Hne.
  intros Hnil. apply Hne.
  apply (directChildren_sameFrame_nil _ l (foldr upStep [] l)); [|done].
  rewrite <- (app_nil_r l) at 1. apply foldr_upStep_sameFrame.
Qed.

Lemma foldr_upStep_childless l :
  (∀ i x, l !! i = Some x → directChildren (depth x) (drop (S i) l) = []) →
  foldr upStep [] l = l.
Proof.
  induction l as [|x l IH]; intros Hnil; [done|].
  simpl. rewrite IH by (intros i; apply (Hnil (S i))).
  unfold upStep. f_equal. apply recompute_no_children.
  pose proof (Hnil 0%nat x eq_refl) as H. simpl in H. by rewrite drop_0 in H.
Qed.

Lemma findIndex_sameFrame l r s :
  Forall2 sameFrame l r →
  findIndex (λ todo, String.eqb (id todo) s) l
  = findIndex (λ todo, String.eqb (id todo) s) r.
Proof.
  induction 1 as [|x y l r (Hid & _) _ IH]; simpl; [done|].
  by rewrite Hid, IH.
Qed.

Lemma cascade_no_children n d s :
  directChildren d s = [] → cascade n d s = s.
Proof.
  revert s. induction n as [|n IH]; intros [|x rest]; simpl; try done.
  destruct (depth x <=? d); [done|].
  destruct (depth x =? d + 1); [done|]. intros H. by rewrite IH.
Qed.

Lemma insert_sameFrame_gen (l : list Todo) k x y :
  l !! k = Some x → sameFrame x y → Forall2 sameFrame l (<[k := y]> l).
Proof.
  intros Hk Hxy. rewrite <- (list_insert_id l k x) at 1 by done.
  apply Forall2_insert; [apply sameFrame_list_refl | done].
Qed.

(** Without direct children the downward pass is the flip alone. *)
Lemma toggleDown_childless l k t :
  l !! k = Some t →
  getDirectChildren l k = [] →
  toggleDown l k t = <[k := set_completed t (negb (completed t))]> l.
Proof.
  intros Hk Hnil. unfold toggleDown. simpl.
  destruct (negb (completed t)) eqn:Hc; [|done].
  pose proof (lookup_lt_Some _ _ _ Hk) as Hlt.
  rewrite (updateChildrenCompletion_view _ _ (set_completed t true))
    by (by apply list_lookup_insert_eq).
  rewrite (getDirectChildren_view _ _ _ Hk) in Hnil.
  rewrite drop_insert_lt by lia. simpl.
  rewrite cascade_no_children by done.
  rewrite <- (drop_insert_lt l (S k) k (set_completed t true)) by lia.
  apply take_drop.
Qed.

(** X11: in a store that the upward pass leaves alone, a completed item of
    depth below 2 with at least one direct child cannot be un-completed by
    its own checkbox: the toggle returns the store unchanged. *)
Theorem X11_parent_cannot_be_reopened todos id' k t :
  settled todos →
  findIndex (λ todo, String.eqb (id todo) id') todos = Some k →
  todos !! k = Some t →
  completed t = true →
  depth t < 2 →
  getDirectChildren todos k ≠ [] →
  toggleTodo todos id' = Normal todos.
Proof.
  intros Hset Hk Ht Hc Hd Hne. unfold settled in Hset.
  unfold toggleTodo. rewrite Hk, Ht. f_equal.
  unfold toggleDown. rewrite Hc. simpl.
  transitivity (updateParentCompletion todos); [|exact Hset].
  rewrite !updateParentCompletion_view.
  pose proof (lookup_lt_Some _ _ _ Ht) as Hlt.
  apply foldr_upStep_ext.
  - apply sameFrame_list_sym. by apply insert_sameFrame.
  - intros i x x' Hi Hi'.
    destruct (decide (i = k)) as [->|Hik].
    + rewrite list_lookup_insert_eq in Hi by done. injection Hi as <-.
      left. split; [done|]. simpl.
      rewrite drop_insert_lt by lia.
      by rewrite <- (getDirectChildren_view _ _ _ Ht).
    + rewrite list_lookup_insert_ne in Hi by done. right. congruence.
Qed.

(** X12: in a store that the upward pass leaves alone, toggling an item
    without direct children flips it, and toggling it once more gives back
    the store one started from. *)
Theorem X12_toggle_twice_restores todos id' k t :
  settled todos →
  findIndex (λ todo, String.eqb (id todo) id') todos = Some k →
  todos !! k = Some t →
  getDirectChildren todos k = [] →
  ∃ r, toggleTodo todos id' = Normal r
       ∧ r !! k = Some (set_completed t (negb (completed t)))
       ∧ toggleTodo r id' = Normal todos.
Proof.
  intros Hset Hk Ht Hnil. unfold settled in Hset.
  pose proof (lookup_lt_Some _ _ _ Ht) as Hlt.
  set (t' := set_completed t (negb (completed t))).
  set (l1 := <[k := t']> todos).
  set (r := updateParentCompletion l1).
  assert (toggleTodo todos id' = Normal r) as Hr.
  { unfold toggleTodo. rewrite Hk, Ht. by rewrite toggleDown_childless. }
  assert (Forall2 sameFrame todos l1) as Hf1 by (by apply insert_sameFrame).
  assert (Forall2 sameFrame l1 r) as Hf2
    by apply updateParentCompletion_sameFrame.
  assert (Forall2 sameFrame todos r) as Hf
    by (by eapply sameFrame_list_trans).
  (* the items of [r] *)
  assert (∀ i x, r !! i = Some x →
            ∃ y, l1 !! i = Some y ∧ x = recompute y (drop (S i) r)) as Hitems.
  { intros i x. unfold r. rewrite updateParentCompletion_view.
    apply foldr_upStep_lookup. }
  assert (l1 !! k = Some t') as Hl1k by (by apply list_lookup_insert_eq).
  assert (directChildren (depth t) (drop (S k) r) = []) as Hnil'.
  { rewrite (getDirectChildren_view _ _ _ Ht) in Hnil.
    apply (directChildren_sameFrame_nil _ (drop (S k) todos)); [|done].
    by apply Forall2_drop. }
  assert (r !! k = Some t') as Hrk.
  { destruct (lookup_lt_is_Some_2 r k) as [x Hx].
    { rewrite <- (Forall2_length _ _ _ Hf). lia. }
    destruct (Hitems k x Hx) as (y & Hy & ->).
    rewrite Hl1k in Hy. injection Hy as <-.
    rewrite Hx. by rewrite recompute_no_children. }
  exists r. split_and!; [done | done |].
  unfold toggleTodo.
  rewrite <- (findIndex_sameFrame todos r id' Hf), Hk, Hrk. f_equal.
  rewrite toggleDown_childless; [|done|].
  2:{ rewrite (getDirectChildren_view _ _ _ Hrk). done. }
  assert (set_completed t' (negb (completed t')) = t) as ->
    by (unfold t'; simpl; rewrite negb_involutive; by destruct t).
  transitivity (updateParentCompletion todos); [|exact Hset].
  rewrite !updateParentCompletion_view.
  apply foldr_upStep_ext.
  - apply sameFrame_list_sym.
    eapply sameFrame_list_trans; [exact Hf|].
    apply (insert_sameFrame_gen r k t' t); [done|].
    unfold t'. by repeat split.
  - intros i x x' Hi Hi'.
    destruct (decide (i = k)) as [->|Hik].
    + rewrite list_lookup_insert_eq in Hi
        by (rewrite <- (Forall2_length _ _ _ Hf); lia).
      right. congruence.
    + rewrite list_lookup_insert_ne in Hi by done.
      destruct (Hitems i x Hi) as (y & Hy & ->).
      unfold l1 in Hy. rewrite list_lookup_insert_ne in Hy by done.
      assert (y = x') as -> by congruence.
      rewrite recompute_depth.
      destruct (decide (depth x' < 2)) as [Hd|Hd];
        [|right; by rewrite recompute_deep by lia].
      destruct (directChildren (depth x') (drop (S i) r)) eqn:Hch;
        [right; by rewrite recompute_no_children|].
      left. split; [done|]. intros Hnil2.
      assert (Forall2 sameFrame (drop (S i) r) (drop (S i) (<[k:=t]> r)))
        as Hfd.
      { apply Forall2_drop.
        apply (insert_sameFrame_gen r k t' t); [done|].
        unfold t'. by repeat split. }
      apply (proj2 (directChildren_sameFrame_nil _ _ _ Hfd)) in Hnil2.
      by rewrite Hch in Hnil2.
Qed.

(** Toggling the completed root of [doneFamilyStore]. *)
Lemma X11_witness :
  (settled doneFamilyStore
   ∧ findIndex (λ todo, String.eqb (id todo) "1") doneFamilyStore = Some 0%nat
   ∧ doneFamilyStore !! 0%nat = Some (item "1" "P" 0 true normal)
   ∧ completed (item "1" "P" 0 true normal) = true
   ∧ depth (item "1" "P" 0 true normal) < 2
   ∧ getDirectChildren doneFamilyStore 0 ≠ [])
  ∧ toggleTodo doneFamilyStore "1" = Normal doneFamilyStore.
Proof.
  split; [by split_and!|].
  apply (X11_parent_cannot_be_reopened doneFamilyStore "1" 0
           (item "1" "P" 0 true normal)); try reflexivity; done.
Defined.

(** Toggling the child L of [doneFamilyStore] twice. *)
Lemma X12_witness :
  (settled doneFamilyStore
   ∧ findIndex (λ todo, String.eqb (id todo) "3") doneFamilyStore = Some 1%nat
   ∧ doneFamilyStore !! 1%nat = Some (item "3" "L" 1 true normal)
   ∧ getDirectChildren doneFamilyStore 1 = [])
  ∧ ∃ r, toggleTodo doneFamilyStore "3" = Normal r
         ∧ r !! 1%nat
           = Some (set_completed (item "3" "L" 1 true normal)
                     (negb (completed (item "3" "L" 1 true normal))))
         ∧ toggleTodo r "3" = Normal doneFamilyStore.
Proof.
  split; [by split_and!|].
  apply (X12_toggle_twice_restores doneFamilyStore "3" 1
           (item "3" "L" 1 true normal)); reflexivity.
Defined.

Lemma toggleTodo_childless_store todos id' k t :
  (∀ i, getDirectChildren todos i = []) →
  findIndex (λ todo, String.eqb (id todo) id') todos = Some k →
  todos !! k = Some t →
  toggleTodo todos id'
  = Normal (<[k := set_completed t (negb (completed t))]> todos).
Proof.
  intros Hnil Hk Ht. unfold toggleTodo. rewrite Hk, Ht. f_equal.
  rewrite toggleDown_childless by done.
  rewrite updateParentCompletion_view.
  apply foldr_upStep_childless. intros i x Hi.
  pose proof (insert_sameFrame todos k t (negb (completed t)) Ht) as Hf.
  destruct (Forall2_lookup_r _ _ _ _ _ Hf Hi) as (y & Hy & (_ & _ & Hd & _)).
  pose proof (Hnil i) as Hni. rewrite (getDirectChildren_view _ _ _ Hy) in Hni.
  rewrite <- Hd.
  apply (directChildren_sameFrame_nil _ (drop (S i) todos)); [|done].
  by apply Forall2_drop.
Qed.

(** X13: in a store in which no item has direct children, for instance a
    flat list, a toggle flips the clicked item and changes nothing else. *)
Theorem X13_flat_store_toggle todos id' k t :
  (∀ i, getDirectChildren todos i = []) →
  findIndex (λ todo, String.eqb (id todo) id') todos = Some k →
  todos !! k = Some t →
  toggleTodo todos id'
  = Normal (<[k := set_completed t (negb (completed t))]> todos).
Proof. apply toggleTodo_childless_store. Qed.

(** Toggling the second of the three roots of [rootsStore]. *)
Lemma X13_witness :
  ((∀ i, getDirectChildren rootsStore i = [])
   ∧ findIndex (λ todo, String.eqb (id todo) "2") rootsStore = Some 1%nat
   ∧ rootsStore !! 1%nat = Some (item "2" "B" 0 true emergency))
  ∧ toggleTodo rootsStore "2"
    = Normal (<[1%nat := set_completed (item "2" "B" 0 true emergency)
                           (negb (completed (item "2" "B" 0 true emergency)))]>
                rootsStore).
Proof.
  assert (∀ i, getDirectChildren rootsStore i = []) as Hnil
    by (intros i; do 3 (destruct i as [|i]; [reflexivity|]); reflexivity).
  split; [by split_and!|].
  apply (X13_flat_store_toggle rootsStore "2" 1
           (item "2" "B" 0 true emergency)); [exact Hnil | reflexivity..].
Defined.

(** *** Un-completion travels upwards *)

Lemma directChildren_elem d s i x :
  s !! i = Some x →
  depth x = d + 1 →
  forallb (λ y, d <? depth y) (take i s) = true →
  x ∈ directChildren d s.
Proof.
  revert i. induction s as [|y s IH]; intros i Hi Hx Hall; [done|].
  destruct i as [|i]; simpl in *.
  - injection Hi as ->.
    rewrite (proj2 (Z.leb_gt _ _)) by lia.
    rewrite (proj2 (Z.eqb_eq _ _)) by done. by left.
  - apply andb_true_iff in Hall as [Hy%Z.ltb_lt Hall].
    rewrite (proj2 (Z.leb_gt _ _)) by lia.
    destruct (depth y =? d + 1); [right|]; by apply (IH i).
Qed.

Lemma forallb_depth_sameFrame (f : Z → bool) s s' :
  Forall2 sameFrame s s' →
  forallb (λ y, f (depth y)) s = forallb (λ y, f (depth y)) s'.
Proof.
  induction 1 as [|x y s s' (_ & _ & Hd & _) _ IH]; simpl; [done|].
  by rewrite Hd, IH.
Qed.

Lemma isDirectChild_spec l p k :
  isDirectChild l p k = true →
  ∃ a c, l !! p = Some a ∧ l !! k = Some c ∧ (p < k)%nat
         ∧ depth c = depth a + 1
         ∧ forallb (λ y, depth a <? depth y)
             (take (k - S p) (drop (S p) l)) = true.
Proof.
  unfold isDirectChild.
  destruct (l !! p) as [a|], (l !! k) as [c|]; try done.
  intros [[Hpk%Nat.ltb_lt Hd%Z.eqb_eq]%andb_true_iff Hall]%andb_true_iff.
  by exists a, c.
Qed.

(** In the result of the upward pass, an item of depth below 2 with an open
    direct child is open. *)
Lemma upward_open_child l p k a c :
  isDirectChild l p k = true →
  l !! p = Some a →
  depth a < 2 →
  foldr upStep [] l !! k = Some c →
  completed c = false →
  ∃ b, foldr upStep [] l !! p = Some b ∧ completed b = false.
Proof.
  intros (a' & c' & Hp & Hk & Hpk & Hd & Hall)%isDirectChild_spec Ha Hlt Hc Hopen.
  assert (a' = a) as -> by congruence.
  set (r := foldr upStep [] l) in *.
  assert (Forall2 sameFrame l r) as Hf.
  { unfold r. rewrite <- (app_nil_r l) at 1. apply foldr_upStep_sameFrame. }
  destruct (Forall2_lookup_l _ _ _ _ _ Hf Hp) as (b & Hb & _).
  exists b. split; [done|].
  destruct (foldr_upStep_lookup _ _ _ Hb) as (y & Hy & Heq). fold r in Heq.
  assert (y = a) as -> by congruence.
  assert (c ∈ directChildren (depth a) (drop (S p) r)) as Hin.
  { apply (directChildren_elem _ _ (k - S p)).
    - rewrite lookup_drop. rewrite <- Hc. f_equal. lia.
    - destruct (Forall2_lookup_lr _ _ _ _ _ _ Hf Hk Hc) as (_ & _ & Hdc & _).
      lia.
    - rewrite <- (forallb_depth_sameFrame (λ z, depth a <? z)
                    (take (k - S p) (drop (S p) l))); [done|].
      by apply Forall2_take, Forall2_drop. }
  rewrite Heq, recompute_children; [|done|].
  - apply not_true_iff_false. intros Hall'%forallb_isCompleted.
    rewrite Forall_forall in Hall'. specialize (Hall' c Hin).
    unfold isCompleted in Hall'. congruence.
  - intros Hnil. rewrite Hnil in Hin. by apply not_elem_of_nil in Hin.
Qed.

Lemma isDirectChild_sameFrame l r p k :
  Forall2 sameFrame l r → isDirectChild l p k = true → isDirectChild r p k = true.
Proof.
  intros Hf (a & c & Hp & Hk & Hpk & Hd & Hall)%isDirectChild_spec.
  destruct (Forall2_lookup_l _ _ _ _ _ Hf Hp) as (a' & Ha' & (_ & _ & Hda & _)).
  destruct (Forall2_lookup_l _ _ _ _ _ Hf Hk) as (c' & Hc' & (_ & _ & Hdc & _)).
  unfold isDirectChild. rewrite Ha', Hc'.
  rewrite (proj2 (Nat.ltb_lt _ _)) by done.
  rewrite (proj2 (Z.eqb_eq _ _)) by lia. simpl.
  rewrite <- Hda.
  rewrite <- (forallb_depth_sameFrame (λ z, depth a <? z)
                (take (k - S p) (drop (S p) l))); [done|].
  by apply Forall2_take, Forall2_drop.
Qed.

(** X14: un-completing an item without direct children opens its parent,
    when that has a depth below 2, and the parent of that parent. *)
Theorem X14_uncompletion_opens_ancestors todos id' k t p a :
  findIndex (λ todo, String.eqb (id todo) id') todos = Some k →
  todos !! k = Some t →
  completed t = true →
  getDirectChildren todos k = [] →
  isDirectChild todos p k = true →
  todos !! p = Some a →
  depth a < 2 →
  ∃ r, toggleTodo todos id' = Normal r
       ∧ r !! k = Some (set_completed t false)
       ∧ (∃ b, r !! p = Some b ∧ completed b = false)
       ∧ ∀ g, isDirectChild todos g p = true →
              ∃ b', r !! g = Some b' ∧ completed b' = false.
Proof.
  intros Hk Ht Hc Hnil Hchild Ha Hd.
  pose proof (lookup_lt_Some _ _ _ Ht) as Hlt.
  set (t' := set_completed t false).
  set (l1 := <[k := t']> todos).
  exists (updateParentCompletion l1).
  assert (toggleTodo todos id' = Normal (updateParentCompletion l1)) as Hr.
  { unfold toggleTodo. rewrite Hk, Ht.
    rewrite toggleDown_childless by done. by rewrite Hc. }
  split; [done|].
  assert (Forall2 sameFrame todos l1) as Hf1 by (by apply insert_sameFrame).
  rewrite updateParentCompletion_view.
  set (r := foldr upStep [] l1).
  assert (Forall2 sameFrame l1 r) as Hf2.
  { unfold r. rewrite <- (app_nil_r l1) at 1. apply foldr_upStep_sameFrame. }
  assert (r !! k = Some t') as Hrk.
  { destruct (lookup_lt_is_Some_2 r k) as [x Hx].
    { rewrite <- (Forall2_length _ _ _ Hf2), <- (Forall2_length _ _ _ Hf1).
      lia. }
    destruct (foldr_upStep_lookup _ _ _ Hx) as (y & Hy & Heq). fold r in Heq.
    unfold l1 in Hy. rewrite list_lookup_insert_eq in Hy by done.
    injection Hy as <-. rewrite Hx, Heq. f_equal.
    apply recompute_no_children. simpl.
    rewrite (getDirectChildren_view _ _ _ Ht) in Hnil.
    apply (directChildren_sameFrame_nil _ (drop (S k) todos)); [|done].
    apply Forall2_drop. by eapply sameFrame_list_trans. }
  split; [done|].
  pose proof Hchild as (a0 & c0 & Hp0 & _ & Hpk & _)%isDirectChild_spec.
  assert (l1 !! p = Some a) as Hl1p
    by (unfold l1; rewrite list_lookup_insert_ne by lia; done).
  destruct (upward_open_child l1 p k a t') as (b & Hb & Hbo);
    [by eapply isDirectChild_sameFrame | done | done | done | done |].
  split; [by exists b|].
  intros g Hg.
  pose proof Hg as (c & a1 & Hgc & Hpa & Hgp & Hdg & _)%isDirectChild_spec.
  assert (a1 = a) as -> by congruence.
  assert (l1 !! g = Some c) as Hl1g
    by (unfold l1; rewrite list_lookup_insert_ne by lia; done).
  apply (upward_open_child l1 g p c b);
    [by eapply isDirectChild_sameFrame | done | lia | done | done].
Qed.

(** Un-completing the grandchild of [chainStore]. *)
Lemma X14_witness :
  (findIndex (λ todo, String.eqb (id todo) "3") chainStore = Some 2%nat
   ∧ chainStore !! 2%nat = Some (item "3" "C" 2 true normal)
   ∧ completed (item "3" "C" 2 true normal) = true
   ∧ getDirectChildren chainStore 2 = []
   ∧ isDirectChild chainStore 1 2 = true
   ∧ chainStore !! 1%nat = Some (item "2" "B" 1 true normal)
   ∧ depth (item "2" "B" 1 true normal) < 2)
  ∧ ∃ r, toggleTodo chainStore "3" = Normal r
         ∧ r !! 2%nat = Some (set_completed (item "3" "C" 2 true normal) false)
         ∧ (∃ b, r !! 1%nat = Some b ∧ completed b = false)
         ∧ ∀ g, isDirectChild chainStore g 1 = true →
                ∃ b', r !! g = Some b' ∧ completed b' = false.
Proof.
  split; [by split_and!|].
  apply (X14_uncompletion_opens_ancestors chainStore "3" 2
           (item "3" "C" 2 true normal) 1 (item "2" "B" 1 true normal));
    try reflexivity; done.
Defined.

(** ** The displayed order, continued *)

(** X15: on a store on which the comparator is consistent, the display keeps
    items of the same depth and the same priority in the order they have in
    the store.  (On other stores ECMAScript leaves the order to the engine;
    the insertion sort keeps it there too.) *)
Theorem X15_display_keeps_ties_in_order todos d p :
  consistentStore todos = true →
  filter (sameGroup d p) (sortedTodos todos) = filter (sameGroup d p) todos.
Proof.
  intros _. unfold sortedTodos, Array_sort.
  rewrite filter_rev, fold_insertBack_filter_group, filter_nil, app_nil_r.
  apply rev_involutive.
Qed.

(** The low-priority roots of [rootsStore]. *)
Lemma X15_witness :
  consistentStore rootsStore = true
  ∧ filter (sameGroup 0 low) (sortedTodos rootsStore)
    = filter (sameGroup 0 low) rootsStore.
Proof.
  split; [reflexivity|].
  apply (X15_display_keeps_ties_in_order rootsStore 0 low). reflexivity.
Defined.

Lemma compareTodos_sameFrame a a' b b' :
  sameFrame a a' → sameFrame b b' → compareTodos a b = compareTodos a' b'.
Proof.
  intros (_ & _ & Hda & Hpa) (_ & _ & Hdb & Hpb). unfold compareTodos.
  by rewrite Hda, Hdb, Hpa, Hpb.
Qed.

Lemma insertBack_sameFrame x x' acc acc' :
  sameFrame x x' → Forall2 sameFrame acc acc' →
  Forall2 sameFrame (insertBack compareTodos x acc)
    (insertBack compareTodos x' acc').
Proof.
  intros Hx. induction 1 as [|y y' acc acc' Hy Hacc IH]; simpl.
  - constructor; [done | constructor].
  - rewrite (compareTodos_sameFrame y y' x x') by done.
    destruct (compareTodos y' x' <=? 0).
    + constructor; [done|]. by constructor.
    + by constructor.
Qed.

Lemma fold_insertBack_sameFrame l l' acc acc' :
  Forall2 sameFrame l l' → Forall2 sameFrame acc acc' →
  Forall2 sameFrame
    (fold_left (λ revPrefix item, insertBack compareTodos item revPrefix) l acc)
    (fold_left (λ revPrefix item, insertBack compareTodos item revPrefix) l' acc').
Proof.
  intros Hl. revert acc acc'.
  induction Hl as [|x x' l l' Hx _ IH]; intros acc acc' Hacc; simpl; [done|].
  by apply IH, insertBack_sameFrame.
Qed.

Lemma Forall2_rev {A B} (R : A → B → Prop) l l' :
  Forall2 R l l' → Forall2 R (rev l) (rev l').
Proof.
  induction 1; simpl; [constructor|]. apply Forall2_app; [done|].
  constructor; [done | constructor].
Qed.

Lemma sortedTodos_sameFrame l l' :
  Forall2 sameFrame l l' → Forall2 sameFrame (sortedTodos l) (sortedTodos l').
Proof.
  intros Hl. apply Forall2_rev, fold_insertBack_sameFrame; [done | constructor].
Qed.

(** X16: on a store on which the comparator is consistent, a toggle never
    moves an item on the display.  The toggled store is such a store again,
    and its displayed list has, position by position, the items of the
    displayed list before the toggle, up to their completed flags. *)
Theorem X16_toggle_keeps_display_order todos id' :
  consistentStore todos = true →
  id' ∈ (id <$> todos) →
  ∃ r, toggleTodo todos id' = Normal r
       ∧ consistentStore r = true
       ∧ Forall2 sameFrame (sortedTodos todos) (sortedTodos r).
Proof.
  intros Hc Hin.
  destruct (toggleTodo_present _ _ Hin) as (k & t & _ & Ht & _ & Hr).
  eexists. split; [exact Hr|].
  assert (Forall2 sameFrame todos
            (updateParentCompletion (toggleDown todos k t))) as Hframe.
  { eapply sameFrame_list_trans;
      [by apply toggleDown_sameFrame | apply updateParentCompletion_sameFrame]. }
  split; [by apply (consistentStore_sameFrame todos)|].
  by apply sortedTodos_sameFrame.
Qed.

(** Toggling the child L of [familyStore], all of whose items have the
    priority normal. *)
Lemma X16_witness :
  (consistentStore familyStore = true ∧ "3" ∈ (id <$> familyStore))
  ∧ ∃ r, toggleTodo familyStore "3" = Normal r
         ∧ consistentStore r = true
         ∧ Forall2 sameFrame (sortedTodos familyStore) (sortedTodos r).
Proof.
  assert ("3" ∈ (id <$> familyStore)) as Hin
    by (by apply (bool_decide_unpack _)).
  split; [split; [reflexivity | exact Hin]|].
  exact (X16_toggle_keeps_display_order familyStore "3" eq_refl Hin).
Defined.

(** ** Presentation *)

(** X17: two different priorities never get the same label, the same row
    style or the same text style. *)
Theorem X17_priorities_are_told_apart p q :
  p ≠ q →
  getPriorityLabel p ≠ getPriorityLabel q
  ∧ getPriorityStyle p ≠ getPriorityStyle q
  ∧ getPriorityTextStyle p ≠ getPriorityTextStyle q.
Proof. destruct p, q; intros Hpq; try done; by split_and!. Qed.

(** Urgent against normal. *)
Lemma X17_witness :
  urgent ≠ normal
  ∧ getPriorityLabel urgent ≠ getPriorityLabel normal
  ∧ getPriorityStyle urgent ≠ getPriorityStyle normal
  ∧ getPriorityTextStyle urgent ≠ getPriorityTextStyle normal.
Proof.
  assert (urgent ≠ normal) as H by done.
  split; [exact H|]. exact (X17_priorities_are_told_apart urgent normal H).
Defined.

(** ** Ids *)

Lemma findIndex_le p l i y :
  l !! i = Some y → p y = true →
  ∃ k, findIndex p l = Some k ∧ (k ≤ i)%nat.
Proof.
  revert i. induction l as [|x l IH]; intros i Hi Hp; [done|]. simpl.
  destruct (p x) eqn:Hx; [exists 0%nat; split; [done | lia]|].
  destruct i as [|i]; simpl in Hi; [congruence|].
  destruct (IH i Hi Hp) as (k & -> & Hk). exists (S k). split; [done | lia].
Qed.

(** X18: when two items carry the same id, the checkbox of the later one
    does not reach it.  In a store without direct children the toggle it
    triggers leaves the later item exactly as it was. *)
Theorem X18_duplicate_id_hides_later_item todos i j y x :
  (∀ n, getDirectChildren todos n = []) →
  (i < j)%nat →
  todos !! i = Some y →
  todos !! j = Some x →
  id y = id x →
  ∃ r, toggleTodo todos (id x) = Normal r ∧ r !! j = Some x.
Proof.
  intros Hnil Hij Hi Hj Hid.
  destruct (findIndex_le (λ todo, String.eqb (id todo) (id x)) todos i y)
    as (k & Hk & Hki); [done | by apply String.eqb_eq |].
  destruct (findIndex_Some _ _ _ Hk) as (t & Ht & _).
  eexists. split; [by apply toggleTodo_childless_store|].
  rewrite list_lookup_insert_ne by lia. done.
Qed.

(** The second of the two items committed in the same millisecond. *)
Lemma X18_witness :
  ((∀ n, getDirectChildren sameTickStore n = [])
   ∧ (0 < 1)%nat
   ∧ sameTickStore !! 0%nat = Some (item "1000" "a" 0 false normal)
   ∧ sameTickStore !! 1%nat = Some (item "1000" "b" 0 false normal)
   ∧ id (item "1000" "a" 0 false normal) = id (item "1000" "b" 0 false normal))
  ∧ ∃ r, toggleTodo sameTickStore (id (item "1000" "b" 0 false normal))
         = Normal r
         ∧ r !! 1%nat = Some (item "1000" "b" 0 false normal).
Proof.
  assert (∀ n, getDirectChildren sameTickStore n = []) as Hnil
    by (intros n; do 2 (destruct n as [|n]; [reflexivity|]); reflexivity).
  split; [split_and!; [exact Hnil | lia | reflexivity..]|].
  apply (X18_duplicate_id_hides_later_item sameTickStore 0 1
           (item "1000" "a" 0 false normal) (item "1000" "b" 0 false normal));
    [exact Hnil | lia | reflexivity..].
Defined.

Section IdOrigin.
Variable trim : string → string.

Lemma run_ids_origin st evs i' :
  i' ∈ (id <$> todos (run trim st evs)) →
  i' ∈ (id <$> todos st) ∨ ∃ now, now ∈ timestamps evs ∧ i' = pretty now.
Proof.
  revert st. induction evs as [|ev evs IH]; intros st Hin; [by left|].
  change (run trim st (ev :: evs)) with (run trim (step trim st ev) evs) in Hin.
  rewrite timestamps_cons.
  destruct (IH _ Hin) as [Hst|(now & Hnow & ->)].
  - destruct (step_ids trim st ev) as [Heq|(e & now & -> & Heq)];
      rewrite Heq in Hst; [by left|].
    apply elem_of_app in Hst as [?|Hs%list_elem_of_singleton]; [by left|].
    subst i'. right. exists now. split; [|done]. simpl. by left.
  - right. exists now. split; [|done]. apply elem_of_app. by right.
Qed.

End IdOrigin.

(** X19: every id in a store built from the initial state is the decimal
    numeral of the clock reading of one of the key presses. *)
Theorem X19_ids_are_clock_readings trim evs i' :
  i' ∈ (id <$> todos (run trim initialState evs)) →
  ∃ now, now ∈ timestamps evs ∧ i' = pretty now.
Proof.
  intros [Hin|H]%run_ids_origin; [|done].
  simpl in Hin. by apply not_elem_of_nil in Hin.
Qed.

(** The id of the item B in the store that [gapTrace] builds. *)
Lemma X19_witness :
  "4" ∈ (id <$> todos (run trimAscii initialState gapTrace))
  ∧ ∃ now, now ∈ timestamps gapTrace ∧ "4" = pretty now.
Proof.
  assert ("4" ∈ (id <$> todos (run trimAscii initialState gapTrace))) as Hin
    by (by apply (bool_decide_unpack _)).
  split; [exact Hin|].
  exact (X19_ids_are_clock_readings trimAscii gapTrace "4" Hin).
Defined.

Section IdsOfCommits.
Variable trim : string → string.

Lemma step_ids_commitTimes st ev :
  id <$> todos (step trim st ev)
  = (id <$> todos st) ++ (pretty <$> commitTimes trim st [ev]).
Proof.
  destruct ev as [e now|value|id']; simpl.
  - destruct (commits trim st e) eqn:Hc; simpl.
    + rewrite (handleKeyDown_commits _ _ _ _ Hc). unfold commits in Hc.
      apply andb_true_iff in Hc as [[_ Hne%negb_true_iff]%andb_true_iff _].
      apply bool_decide_eq_false in Hne.
      rewrite addTodo_commit by done. simpl. by rewrite fmap_app.
    + rewrite (proj1 (handleKeyDown_no_commit trim now st e Hc)).
      by rewrite app_nil_r.
  - by rewrite app_nil_r.
  - rewrite app_nil_r.
    destruct (toggleTodo (todos st) id') as [r|] eqn:Hr; [|done].
    simpl. by eapply toggleTodo_ids.
Qed.

Lemma commitTimes_cons st ev evs :
  commitTimes trim st (ev :: evs)
  = commitTimes trim st [ev] ++ commitTimes trim (step trim st ev) evs.
Proof. simpl. by rewrite app_nil_r. Qed.

Lemma run_ids_commitTimes st evs :
  id <$> todos (run trim st evs)
  = (id <$> todos st) ++ (pretty <$> commitTimes trim st evs).
Proof.
  revert st. induction evs as [|ev evs IH]; intros st.
  - simpl. by rewrite app_nil_r.
  - change (run trim st (ev :: evs)) with (run trim (step trim st ev) evs).
    rewrite IH, step_ids_commitTimes, (commitTimes_cons st ev evs).
    by rewrite fmap_app, app_assoc.
Qed.

End IdsOfCommits.

(** X21: the ids of a store built from the initial state are, item by item,
    the decimal numerals of the clock readings at which the drafts were
    committed; key presses that commit nothing do not count.  The ids are
    therefore pairwise distinct exactly when those clock readings are. *)
Theorem X21_ids_are_commit_times trim evs :
  id <$> todos (run trim initialState evs)
  = pretty <$> commitTimes trim initialState evs
  ∧ (NoDup (id <$> todos (run trim initialState evs))
     ↔ NoDup (commitTimes trim initialState evs)).
Proof.
  assert (id <$> todos (run trim initialState evs)
          = pretty <$> commitTimes trim initialState evs) as Heq
    by apply run_ids_commitTimes.
  split; [done|]. rewrite Heq. apply (NoDup_fmap pretty).
Qed.

(** A key press that commits nothing may share its clock reading with a
    commit: the ids stay distinct. *)
Example tab_then_two_commits :
  ¬ NoDup (timestamps tabThenTwoTrace)
  ∧ commitTimes trimAscii initialState tabThenTwoTrace = [5; 6]
  ∧ id <$> todos (run trimAscii initialState tabThenTwoTrace) = ["5"; "6"].
Proof. split_and!; [by apply (bool_decide_unpack _) | done | done]. Qed.

(** ** Backspace *)

(** X20: on an empty text and below the top level, Backspace does what
    Shift+Tab does: the draft moves up one level and nothing else changes. *)
Theorem X20_backspace_outdents trim n1 n2 st back shiftTab :
  key back = "Backspace" →
  key shiftTab = "Tab" → shiftKey shiftTab = true →
  inputValue st = "" →
  0 < inputDepth st →
  handleKeyDown trim n1 st back = handleKeyDown trim n2 st shiftTab
  ∧ handleKeyDown trim n1 st back = setInputDepth st (inputDepth st - 1).
Proof.
  intros Hb Hs Hss Hv Hd. unfold handleKeyDown. rewrite Hb, Hs, Hss, Hv.
  simpl. rewrite (proj2 (Z.ltb_lt _ _)) by done. simpl.
  split; [|done]. f_equal. lia.
Qed.

(** Backspace on an empty draft at depth 2. *)
Lemma X20_witness :
  (key backspaceKey = "Backspace"
   ∧ key shiftTabKey = "Tab" ∧ shiftKey shiftTabKey = true
   ∧ inputValue emptyDraftState = ""
   ∧ 0 < inputDepth emptyDraftState)
  ∧ handleKeyDown trimAscii 1 emptyDraftState backspaceKey
    = handleKeyDown trimAscii 2 emptyDraftState shiftTabKey
  ∧ handleKeyDown trimAscii 1 emptyDraftState backspaceKey
    = setInputDepth emptyDraftState (inputDepth emptyDraftState - 1).
Proof.
  split; [split_and!; try reflexivity; simpl; lia|].
  apply (X20_backspace_outdents trimAscii 1 2 emptyDraftState
           backspaceKey shiftTabKey); try reflexivity; simpl; lia.
Defined.
